(** * blockchain-libs: the JSON-RPC engine, the fan-out adapter and the
    provider controller

  A shallow embedding of the TypeScript sources

    - [src/provider/abc.ts]                 ([SimpleClient])
    - [src/provider/chains/stc/starcoin.ts] ([StcClient])
    - the provider controller               ([ProviderController])
    - the test-suite of [src/basic/request/json-rpc.ts]

  Asynchronous code is modelled by promises that carry the instant at
  which they settle, so that races between network calls and timers can
  be evaluated.  Mutable controller state is passed explicitly. *)

From Stdlib Require Import ZArith String List Bool Lia DecimalString.
From stdpp Require Import base option numbers list strings gmap.

Set Warnings "-register-all".
Local Open Scope string_scope.

(* ===================================================================== *)
(** ** JavaScript values and errors                                       *)
(* ===================================================================== *)

Module Js.

(** Run-time values.  Numbers are restricted to the integers the code
    manipulates (ids, counts, status codes); a string is a sequence of
    code units and [String.length] is its [.length]; an object is the
    list of its own properties in insertion order (keys are unique in a
    parsed object, and [get] reads the first binding). *)
Inductive JsVal : Type :=
| JUndefined
| JNull
| JBool (b : bool)
| JNumber (n : Z)
| JString (s : string)
| JArray (items : list JsVal)
| JObject (fields : list (string * JsVal)).

(** The [typeof] operator. *)
Definition typeof (v : JsVal) : string :=
  match v with
  | JUndefined => "undefined"
  | JNull => "object"
  | JBool _ => "boolean"
  | JNumber _ => "number"
  | JString _ => "string"
  | JArray _ => "object"
  | JObject _ => "object"
  end.

Fixpoint assoc (key : string) (fields : list (string * JsVal)) : option JsVal :=
  match fields with
  | [] => None
  | (k, v) :: rest => if String.eqb k key then Some v else assoc key rest
  end.

(** [key in value] together with [value[key]]: [None] when the key is
    not a property of the value. *)
Definition get (key : string) (v : JsVal) : option JsVal :=
  match v with
  | JObject fields => assoc key fields
  | _ => None
  end.

(** [a === b] on primitive values.  Objects and arrays are compared by
    reference, which these values do not carry; the code modelled here
    applies the operator to primitives only. *)
Definition strictEq (a b : JsVal) : bool :=
  match a, b with
  | JUndefined, JUndefined => true
  | JNull, JNull => true
  | JBool x, JBool y => Bool.eqb x y
  | JNumber x, JNumber y => (x =? y)%Z
  | JString x, JString y => String.eqb x y
  | _, _ => false
  end.

(** Decimal rendering of a count inside a template literal. *)
Definition showNat (n : nat) : string := NilEmpty.string_of_uint (Nat.to_uint n).

(** What a promise can be rejected with. *)
Inductive Error : Type :=
| PlainError (message : string)                      (* Error(message) *)
| ResponseError (message : string)                   (* basic/request/exceptions *)
| JsonPRCResponseError (message : string) (remote : JsVal)
| NotImplementedError                                (* basic/exceptions *)
| PreconditionError (message : option string)        (* thrown by check / checkIsDefined *)
| AggregateError (reasons : list Error).

End Js.

(* ===================================================================== *)
(** ** Promises with settle times                                         *)
(* ===================================================================== *)

Module Promise.
Import Js.

Inductive Outcome (A : Type) : Type :=
| Fulfilled (v : A)
| Rejected (e : Error).
Arguments Fulfilled {A} v.
Arguments Rejected {A} e.

(** A promise either settles [after] so many milliseconds, counted from
    the moment it was created, or stays pending for ever. *)
Inductive Promise (A : Type) : Type :=
| Settles (after : N) (o : Outcome A)
| Never.
Arguments Settles {A} after o.
Arguments Never {A}.

Definition resolve {A} (v : A) : Promise A := Settles 0%N (Fulfilled v).
Definition reject {A} (e : Error) : Promise A := Settles 0%N (Rejected e).

(** A promise created [d] milliseconds after the current origin. *)
Definition later {A} (d : N) (p : Promise A) : Promise A :=
  match p with
  | Settles t o => Settles (d + t)%N o
  | Never => Never
  end.

(** [await p] followed by the continuation [k]; a rejection skips [k]. *)
Definition andThen {A B} (k : A -> Promise B) (p : Promise A) : Promise B :=
  match p with
  | Settles t (Fulfilled v) => later t (k v)
  | Settles t (Rejected e) => Settles t (Rejected e)
  | Never => Never
  end.

#[export] Instance promise_ret : MRet Promise := @resolve.
#[export] Instance promise_bind : MBind Promise := @andThen.
#[export] Instance promise_fmap : FMap Promise :=
  fun A B f p => andThen (fun v => resolve (f v)) p.

Definition settled {A} (p : Promise A) : bool :=
  match p with Settles _ _ => true | Never => false end.

Definition fulfils {A} (p : Promise A) : bool :=
  match p with Settles _ (Fulfilled _) => true | _ => false end.

(** Of two promises the one that settles first; the left one on a tie
    (it subscribed first). *)
Definition earlier {A} (p q : Promise A) : Promise A :=
  match p, q with
  | Never, _ => q
  | _, Never => p
  | Settles tp _, Settles tq _ => if (tp <=? tq)%N then p else q
  end.

(** [Promise.race]. *)
Definition race {A} (ps : list (Promise A)) : Promise A := foldr earlier Never ps.

Fixpoint settleAll {A} (ps : list (Promise A)) : option (N * list (Outcome A)) :=
  match ps with
  | [] => Some (0%N, [])
  | Never :: _ => None
  | Settles t o :: rest =>
      match settleAll rest with
      | Some (t', os) => Some (N.max t t', o :: os)
      | None => None
      end
  end.

(** [Promise.allSettled]: never rejects, waits for every element. *)
Definition allSettled {A} (ps : list (Promise A)) : Promise (list (Outcome A)) :=
  match settleAll ps with
  | Some (t, os) => Settles t (Fulfilled os)
  | None => Never
  end.

Definition reasons {A} (os : list (Outcome A)) : list Error :=
  omap (fun o => match o with Rejected e => Some e | Fulfilled _ => None end) os.

Definition values {A} (os : list (Outcome A)) : list A :=
  omap (fun o => match o with Fulfilled v => Some v | Rejected _ => None end) os.

Definition rejects {A} (p : Promise A) : bool :=
  match p with Settles _ (Rejected _) => true | _ => false end.

(** [Promise.all]: rejects with the first rejection, otherwise waits for
    every element. *)
Definition all {A} (ps : list (Promise A)) : Promise (list A) :=
  match race (List.filter rejects ps) with
  | Settles t (Rejected e) => Settles t (Rejected e)
  | _ =>
      match settleAll ps with
      | Some (t, os) => Settles t (Fulfilled (values os))
      | None => Never
      end
  end.

(** Modelled from the spec: [createAnyPromise] of
    [src/basic/promise-plus.ts], which is not among the sources.  "The
    race resolves with the first candidate that fulfills [...], not
    merely the first to respond"; when every member has rejected there
    is no winner and the promise rejects. *)
Definition createAnyPromise {A} (ps : list (Promise A)) : Promise A :=
  match race (List.filter fulfils ps) with
  | Settles t o => Settles t o
  | Never =>
      match settleAll ps with
      | Some (t, os) => Settles t (Rejected (AggregateError (reasons os)))
      | None => Never
      end
  end.

(** Modelled from the spec: [createDelayPromise] of
    [src/basic/promise-plus.ts]: "a fixed delay [...] that resolves to"
    the given value. *)
Definition createDelayPromise {A} (timeout : N) (value : A) : Promise A :=
  Settles timeout (Fulfilled value).

End Promise.

(* ===================================================================== *)
(** ** The JSON-RPC engine                                                *)
(* ===================================================================== *)

Module JsonRpc.
Import Js Promise.

(** The module [src/basic/request/json-rpc.ts] and the transport under it
    are not among the sources; their test-suite is.  The definitions of
    this module follow the specification, and take the literal messages,
    headers and bodies from the expectations of the tests. *)

(** What is handed to [fetch], and what comes back: the status code and
    the body as [response.json()] parses it. *)
Record HttpRequest : Type := mkRequest {
  url : string;
  verb : string;
  headers : gmap string string;
  body : JsVal;
}.

Record HttpResponse : Type := mkResponse {
  status : nat;
  payload : JsVal;
}.

(** An instance: the endpoint and the headers bound at construction. *)
Record JsonRPCRequest : Type := mkRpc {
  endpoint : string;
  instanceHeaders : gmap string string;
}.

(** Modelled from the spec: the built-in default headers of the transport
    ([src/basic/request], not among the sources): "User-Agent:
    blockchain-libs, Content-Type: application/json". *)
Definition defaultHeaders : gmap string string :=
  <["User-Agent" := "blockchain-libs"]> (<["Content-Type" := "application/json"]> ∅).

(** Modelled from the spec: the header merge of the transport
    ([src/basic/request], not among the sources): "built-in defaults ->
    per-instance headers -> per-call headers; identical keys are
    overwritten by higher precedence". *)
Definition mergeHeaders (instance perCall : gmap string string) : gmap string string :=
  perCall ∪ instance ∪ defaultHeaders.

(** Modelled from the spec: the status classification of the transport
    (not among the sources): a 2xx status is a success. *)
Definition isOk (response : HttpResponse) : bool :=
  (200 <=? status response)%nat && (status response <? 300)%nat.

Section Engine.

(** The network, as the test-suite mocks it. *)
Variable fetch : HttpRequest -> Promise HttpResponse.
Variable self : JsonRPCRequest.

(** Modelled from the spec: the request envelope of
    [src/basic/request/json-rpc.ts] (not among the sources): an object
    with the keys jsonrpc (always 2.0), id, method and params, in that
    order. *)
Definition normalizePayload (method : string) (params : JsVal) (id : nat) : JsVal :=
  JObject [("jsonrpc", JString "2.0");
           ("id", JNumber (Z.of_nat id));
           ("method", JString method);
           ("params", params)].

(** Modelled from the spec: the request the engine hands to the
    transport (not among the sources): a POST of the payload to the
    endpoint, with the merged headers. *)
Definition request (payload : JsVal) (perCall : gmap string string) : HttpRequest :=
  {| url := endpoint self;
     verb := "POST";
     headers := mergeHeaders (instanceHeaders self) perCall;
     body := payload |}.

(** Modelled from the spec: the transport under the engine (not among
    the sources).  "Any non-2xx HTTP status yields a TransportError [...]
    (message pattern: Wrong response<STATUS>)". *)
Definition classify (response : HttpResponse) : Promise JsVal :=
  if isOk response
  then resolve (JsonRpc.payload response)
  else reject (ResponseError ("Wrong response<" +:+ showNat (status response) +:+ ">")).

(** Modelled from the spec: one round trip through the transport (not
    among the sources): the request is issued, the status classified and
    the parsed body returned. *)
Definition post (payload : JsVal) (perCall : gmap string string) : Promise JsVal :=
  fetch (request payload perCall) ≫= classify.

(** Modelled from the spec: the extraction rule of
    [src/basic/request/json-rpc.ts] (not among the sources).  "If
    [error] is present, fails with a ProtocolError (JSON-RPC error)
    carrying the remote code/message, irrespective of whether [result] is
    also present.  Else if the [result] key is absent, fails with a
    ProtocolError (result not found).  Else returns [result] verbatim."
    The messages are those the test-suite expects. *)
Definition parseRPCResponse (response : JsVal) : Promise JsVal :=
  match get "error" response with
  | Some remote => reject (JsonPRCResponseError "Error JSON PRC response" remote)
  | None =>
      match get "result" response with
      | None => reject (ResponseError "Invalid JSON RPC response, result not found")
      | Some result => resolve result
      end
  end.

(** Modelled from the spec: the body of a single call (not among the
    sources): "builds one envelope with id 0". *)
Definition callPayload (method : string) (params : JsVal) : JsVal :=
  normalizePayload method params 0.

(** Modelled from the spec: [JsonRPCRequest.call] (not among the
    sources): "builds one envelope with id 0, POSTs it, parses the
    single-object response". *)
Definition call (method : string) (params : JsVal) (perCall : gmap string string)
  : Promise JsVal :=
  post (callPayload method params) perCall ≫= parseRPCResponse.

(** Modelled from the spec: the body of a batch (not among the sources):
    "builds an array envelope with ids 0..N-1 matching request order". *)
Definition batchEnvelopes (calls : list (string * JsVal)) : list JsVal :=
  imap (fun index c => normalizePayload c.1 c.2 index) calls.

(** Modelled from the spec: the batch is "POSTed as a JSON array". *)
Definition batchPayload (calls : list (string * JsVal)) : JsVal :=
  JArray (batchEnvelopes calls).

(** Modelled from the spec: the check of a batch response (not among the
    sources): it "requires the parsed response to be a JSON array [...]
    of exactly the same length as the request [...].  Each element is
    then extracted with the same single-call rule, correlated strictly by
    position."  A failing element rejects the batch ("Protocol errors
    reject the originating call").  The messages are those the test-suite
    expects. *)
Definition parseBatchResponse (calls : list (string * JsVal)) (response : JsVal)
  : Promise (list JsVal) :=
  match response with
  | JArray responses =>
      if (length calls =? length responses)%nat
      then all (map parseRPCResponse responses)
      else reject (ResponseError
             ("Invalid JSON Batch RPC response, batch with "
                +:+ showNat (length calls) +:+ " calls, but got "
                +:+ showNat (length responses) +:+ " responses"))
  | _ => reject (ResponseError
           "Invalid JSON Batch RPC response, response should be an array")
  end.

(** Modelled from the spec: [JsonRPCRequest.batchCall] (not among the
    sources). *)
Definition batchCall (calls : list (string * JsVal)) (perCall : gmap string string)
  : Promise (list JsVal) :=
  post (batchPayload calls) perCall ≫= parseBatchResponse calls.

End Engine.

(** The [id] an envelope carries. *)
Definition envelopeId (envelope : JsVal) : option JsVal := get "id" envelope.

End JsonRpc.

(* ===================================================================== *)
(** ** [SimpleClient]: the fan-out adapter                                *)
(* ===================================================================== *)

Module Abc.
Import Js Promise.

(** Modelled from the spec: [check] of [src/basic/precondtion.ts], which
    is not among the sources: "a defensive invariant violation is
    fatal". *)
Definition check (condition : bool) (message : string) : Promise unit :=
  if condition then resolve tt else reject (PreconditionError (Some message)).

(** [array.reduce((acc, item, index) => ..., init)]. *)
Fixpoint reduceFrom {A B} (index : nat) (f : B -> A -> nat -> B) (acc : B) (items : list A) : B :=
  match items with
  | [] => acc
  | item :: rest => reduceFrom (S index) f (f acc item index) rest
  end.

Definition reduce {A B} (f : B -> A -> nat -> B) (init : B) (items : list A) : B :=
  reduceFrom 0 f init items.

Section BatchCall2SingleCall.
Context {T R : Type}.

(** The part of [batchCall2SingleCall] that runs once
    [Promise.allSettled] has delivered [outputs]. *)
Definition assemble (inputs : list T) (outputs : list (Outcome (option R)))
  : Promise (list (option R)) :=
  check (length inputs =? length outputs)%nat
        ("Batch call " +:+ showNat (length inputs) +:+ " requests, but received "
           +:+ showNat (length outputs) +:+ " results") ≫= fun _ =>
  resolve (map (fun result =>
                  match result with
                  | Fulfilled value => value
                  | Rejected _ => None
                  end) outputs).

Definition batchCall2SingleCall (inputs : list T) (handler : T -> Promise (option R))
  : Promise (list (option R)) :=
  allSettled (map handler inputs) ≫= assemble inputs.

(** One [console.debug] call, argument by argument: the template string
    with [handler.name], the literal [' input: '], [inputs[index]], the
    literal [', reason'] and [result.reason]. *)
Record DebugLine : Type := mkDebug {
  heading : string;
  inputLabel : string;
  offending : option T;
  reasonLabel : string;
  reason : Error;
}.

Definition debugLine (handlerName : string) (input : option T) (why : Error) : DebugLine :=
  mkDebug ("Error in Calling " +:+ handlerName +:+ ". ") " input: " input ", reason" why.

(** The lines the callback of [outputs.map] writes, in the order of the
    indices it visits. *)
Definition debugLines (handlerName : string) (inputs : list T)
    (outputs : list (Outcome (option R))) : list DebugLine :=
  omap id (imap (fun index result =>
                   match result with
                   | Fulfilled _ => None
                   | Rejected why => Some (debugLine handlerName (inputs !! index) why)
                   end) outputs).

(** [batchCall2SingleCall] together with its console: the promise
    delivers the outputs and the lines written by the time it fulfils.
    A failed [check] throws before [outputs.map] runs, and nothing is
    written.  [handlerName] is [handler.name]. *)
Definition batchCall2SingleCallLogged (handlerName : string)
    (inputs : list T) (handler : T -> Promise (option R))
  : Promise (list (option R) * list DebugLine) :=
  allSettled (map handler inputs) ≫= fun outputs =>
  assemble inputs outputs ≫= fun values =>
  resolve (values, debugLines handlerName inputs outputs).

End BatchCall2SingleCall.

Section Objects.
Context {V : Type}.

(** A plain object used as a dictionary of arrays: its own properties
    and, once an assignment to [__proto__] has replaced
    [Object.prototype], the array that became its prototype. *)
Record Dict : Type := mkDict {
  entries : gmap string V;
  prototype : option V;
}.

(** The object literal [{}]. *)
Definition emptyDict : Dict := mkDict ∅ None.

(** [obj[key] = value] for a [value] that is an array.  [__proto__] is
    the accessor every plain object inherits from [Object.prototype]:
    its setter makes [value] the prototype of [obj] and creates no
    property.  Any other key becomes (or stays) an own property. *)
Definition assign (key : string) (value : V) (obj : Dict) : Dict :=
  if decide (key = "__proto__")
  then mkDict (entries obj) (Some value)
  else mkDict (<[key := value]> (entries obj)) (prototype obj).

End Objects.

Arguments Dict : clear implicits.

Section GetUTXOs.
Context {UTXO : Type}.

(** [SimpleClient.getUTXO]: overridden by the chains that have UTXOs. *)
Definition defaultGetUTXO (address : string) : Promise (list UTXO) :=
  reject NotImplementedError.

(** The override in force.  Every item of a batch is a call of its own:
    [getUTXO index address] is the promise of the call made for the
    item at position [index], so that two calls for one address may
    settle differently. *)
Variable getUTXO : nat -> string -> Promise (list UTXO).

(** [acc[curAddress] = utxos || []]; an index outside [addresses] would
    read [undefined] and write the key of that name. *)
Definition putUTXOs (addresses : list string)
    (acc : Dict (list UTXO)) (utxos : option (list UTXO)) (index : nat)
  : Dict (list UTXO) :=
  let curAddress := default "undefined" (addresses !! index) in
  assign curAddress (default [] utxos) acc.

(** The inputs of the batch are the addresses, each paired here with its
    position to tell the calls apart. *)
Definition getUTXOs (addresses : list string) : Promise (Dict (list UTXO)) :=
  batchCall2SingleCall (imap pair addresses)
                       (fun call => Some <$> getUTXO call.1 call.2) ≫= fun result =>
  resolve (reduce (putUTXOs addresses) emptyDict result).

End GetUTXOs.

End Abc.

(* ===================================================================== *)
(** ** [StcClient]                                                        *)
(* ===================================================================== *)

Module Starcoin.
Import Js Promise.

Section StcClient.

(** [this.rpc.call(method, params)]. *)
Variable rpcCall : string -> JsVal -> Promise JsVal.

(** [txid.length === 66], evaluated only once [typeof txid] is known to
    be ["string"]. *)
Definition hasLength66 (txid : JsVal) : bool :=
  match txid with
  | JString s => (String.length s =? 66)%nat
  | _ => false
  end.

Definition broadcastTransaction (rawTx : string) : Promise bool :=
  rpcCall "txpool.submit_hex_transaction" (JArray [JString rawTx]) ≫= fun txid =>
  resolve (String.eqb (typeof txid) "string" && hasLength66 txid).

End StcClient.

End Starcoin.

(* ===================================================================== *)
(** ** [ProviderController]                                               *)
(* ===================================================================== *)

Module Controller.
Import Js Promise.

Record ClientInfo : Type := mkInfo {
  bestBlockNumber : Z;
  isReady : bool;
}.

Record ClientConfig : Type := mkConfig {
  name : string;
  args : list JsVal;
}.

Record ChainInfo : Type := mkChain {
  code : string;
  impl : string;
  clients : list ClientConfig;
  implOptions : JsVal;
}.

(** A client instance: the class it was built from, its constructor
    arguments, the chain it is bound to and the answer of its node to
    [getInfo()] when asked at a given instant ([Date.now()], in
    milliseconds). *)
Record BaseClient : Type := mkClient {
  className : string;
  ctorArgs : list JsVal;
  chainInfo : option ChainInfo;
  getInfo : Z -> Promise ClientInfo;
}.

Definition setChainInfo (info : ChainInfo) (client : BaseClient) : BaseClient :=
  {| className := className client;
     ctorArgs := ctorArgs client;
     chainInfo := Some info;
     getInfo := getInfo client |}.

Definition ClientFilter : Type := BaseClient -> bool.

(** [new clazz(...config.args)] and [module[config.name]]. *)
Definition ClientClass : Type := list JsVal -> BaseClient.
Definition ChainModule : Type := string -> option ClientClass.

Record ProviderController : Type := mkController {
  clientsCache : gmap string (list BaseClient);
  lastClientCache : gmap string (BaseClient * Z);
}.

(** One call of [getClient]: how the returned promise settles, the
    controller afterwards, the candidates whose [getInfo] was invoked and
    what [console.error] received. *)
Record Run : Type := mkRun {
  settlement : Promise BaseClient;
  controller : ProviderController;
  readinessChecks : list BaseClient;
  consoleErrors : list Error;
}.

(** Modelled from the spec: [checkIsDefined] of
    [src/basic/precondtion.ts], which is not among the sources; it
    throws on [undefined] and returns its argument otherwise. *)
Definition checkIsDefined {A} (value : option A) : Outcome A :=
  match value with
  | Some v => Fulfilled v
  | None => Rejected (PreconditionError None)
  end.

(** [typeof lastClient] for a destructured cache slot. *)
Definition typeofClient (slot : option BaseClient) : string :=
  match slot with
  | Some _ => "object"
  | None => "undefined"
  end.

(** [expiredAt <= Date.now()]: a comparison with [undefined] is false. *)
Definition lessEq (expiredAt : option Z) (now : Z) : bool :=
  match expiredAt with
  | Some at_ => (at_ <=? now)%Z
  | None => false
  end.

Section ProviderController.

Variable chainSelector : string -> ChainInfo.

(** [require('./chains/<impl>')]. *)
Variable require : string -> ChainModule.

Definition IMPLS (key : string) : option ChainModule :=
  if bool_decide (key ∈ ["algo"; "cfx"; "cosmos"; "eth"; "sol"; "stc"; "near"])
  then Some (require ("./chains/" +:+ key))
  else None.

Definition requireChainImpl (impl : string) : Outcome ChainModule :=
  checkIsDefined (IMPLS impl).

(** The guard at the head of [getClient]:
    [typeof lastClient !== undefined && expiredAt <= Date.now() && filter(lastClient)]. *)
Definition cachedClient (self : ProviderController) (chainCode : string)
    (filter : ClientFilter) (now : Z) : option BaseClient :=
  let entry := lastClientCache self !! chainCode in
  let lastClient := fst <$> entry in
  let expiredAt := snd <$> entry in
  if negb (strictEq (JString (typeofClient lastClient)) JUndefined) && lessEq expiredAt now
  then match lastClient with
       | Some client => if filter client then Some client else None
       | None => None
       end
  else None.

(** [.map(config => [module[config.name], config])
     .filter(([clazz, _]) => typeof clazz != 'undefined')
     .map(([clazz, config]) => new clazz(...config.args))]. *)
Definition instantiate (module : ChainModule) (info : ChainInfo) : list BaseClient :=
  let entries := map (fun config => (module (name config), config)) (clients info) in
  let defined :=
    List.filter (fun entry : option ClientClass * ClientConfig =>
                   bool_decide (is_Some entry.1)) entries in
  omap (fun entry : option ClientClass * ClientConfig =>
          (fun clazz => clazz (args entry.2)) <$> entry.1) defined.

(** The pool for a chain code, built on first use. *)
Definition resolveClients (self : ProviderController) (chainCode : string)
  : Outcome (list BaseClient * ProviderController) :=
  match clientsCache self !! chainCode with
  | Some (client :: rest) => Fulfilled (client :: rest, self)
  | _ =>
      let chainInfo := chainSelector chainCode in
      match requireChainImpl (impl chainInfo) with
      | Rejected e => Rejected e
      | Fulfilled module =>
          let clients := map (setChainInfo chainInfo) (instantiate module chainInfo) in
          Fulfilled (clients,
                     {| clientsCache := <[chainCode := clients]> (clientsCache self);
                        lastClientCache := lastClientCache self |})
      end
  end.

(** The task started for one candidate. *)
Definition readinessCheck (now : Z) (candidate : BaseClient) : Promise BaseClient :=
  getInfo candidate now ≫= fun info =>
  if negb (isReady info)
  then reject (PlainError (className candidate +:+ "<[object Object]> is not ready."))
  else resolve candidate.

Definition readinessRace (filter : ClientFilter) (clients : list BaseClient) (now : Z)
  : Promise (option BaseClient) :=
  race [ Some <$> createAnyPromise (map (readinessCheck now) (List.filter filter clients));
         createDelayPromise 10000 None ].

Definition getClient (self : ProviderController) (chainCode : string)
    (filter : option ClientFilter) (now : Z) : Run :=
  let filter := default (fun _ => true) filter in
  match cachedClient self chainCode filter now with
  | Some lastClient => mkRun (resolve lastClient) self [] []
  | None =>
      match resolveClients self chainCode with
      | Rejected e => mkRun (reject e) self [] []
      | Fulfilled (clients, self) =>
          let candidates := List.filter filter clients in
          match readinessRace filter clients now with
          | Never => mkRun Never self candidates []
          | Settles t outcome =>
              let client := match outcome with Fulfilled c => c | Rejected _ => None end in
              let caught := match outcome with Fulfilled _ => [] | Rejected e => [e] end in
              match client with
              | None =>
                  mkRun (Settles t (Rejected (PlainError "No available client")))
                        self candidates caught
              | Some client =>
                  mkRun (Settles t (Fulfilled client))
                        {| clientsCache := clientsCache self;
                           lastClientCache :=
                             <[chainCode := (client, (now + Z.of_N t + 300000)%Z)]>
                               (lastClientCache self) |}
                        candidates caught
              end
          end
      end
  end.

End ProviderController.

End Controller.

(* ===================================================================== *)
(** ** Concrete nodes, chains and replies used by the examples            *)
(* ===================================================================== *)

Module Fixtures.
Import Js Promise Controller.

(** A client class whose node always answers [getInfo] the same way. *)
Definition node (name : string) (answer : Promise ClientInfo) : ClientClass :=
  fun args => mkClient name args None (fun _ => answer).

Definition ready : Promise ClientInfo := Settles 50 (Fulfilled (mkInfo 8621972 true)).
Definition syncing : Promise ClientInfo := Settles 20 (Fulfilled (mkInfo 0 false)).
Definition down : Promise ClientInfo := Settles 5 (Rejected (ResponseError "Wrong response<502>")).
Definition slow : Promise ClientInfo := Settles 12000 (Fulfilled (mkInfo 8621972 true)).

Definition chainModule : ChainModule := fun name =>
  if String.eqb name "Ready" then Some (node "Ready" ready)
  else if String.eqb name "Syncing" then Some (node "Syncing" syncing)
  else if String.eqb name "Down" then Some (node "Down" down)
  else if String.eqb name "Slow" then Some (node "Slow" slow)
  else if String.eqb name "Silent" then Some (node "Silent" Never)
  else None.

Definition require (path : string) : ChainModule := chainModule.

Definition config (name : string) (endpoint : string) : ClientConfig :=
  mkConfig name [JString endpoint].

Definition chainSelector (chainCode : string) : ChainInfo :=
  if String.eqb chainCode "eth"
  then mkChain "eth" "eth" [config "Syncing" "https://a"; config "Ready" "https://b"] JNull
  else if String.eqb chainCode "stc"
  then mkChain "stc" "stc" [config "Syncing" "https://a"; config "Syncing" "https://b"] JNull
  else if String.eqb chainCode "sol"
  then mkChain "sol" "sol" [config "Down" "https://a"; config "Down" "https://b"] JNull
  else if String.eqb chainCode "near"
  then mkChain "near" "near" [config "Slow" "https://a"; config "Silent" "https://b"] JNull
  else mkChain chainCode "btc" [] JNull.

Definition fresh : ProviderController := mkController ∅ ∅.

Definition ethA : BaseClient :=
  setChainInfo (chainSelector "eth") (node "Syncing" syncing [JString "https://a"]).
Definition ethB : BaseClient :=
  setChainInfo (chainSelector "eth") (node "Ready" ready [JString "https://b"]).

Definition stcPool : list BaseClient :=
  map (setChainInfo (chainSelector "stc"))
      [node "Syncing" syncing [JString "https://a"];
       node "Syncing" syncing [JString "https://b"]].

(** The controller after a first [getClient("eth")] at instant 0: the
    pool is built and [ethB] is cached until instant 300050. *)
Definition warm : ProviderController :=
  mkController (<["eth" := [ethA; ethB]]> ∅) (<["eth" := (ethB, 300050%Z)]> ∅).

(** Replies of a mocked [fetch], as in the test-suite. *)
Definition okResponse (data : JsVal) : Promise JsonRpc.HttpResponse :=
  resolve (JsonRpc.mkResponse 200 data).

Definition rpc : JsonRpc.JsonRPCRequest :=
  JsonRpc.mkRpc "https://mytest.com/rpc" (<["H1" := "1"]> (<["H2" := "2"]> ∅)).

Definition bothErrorAndResult : JsVal :=
  JObject [("jsonrpc", JString "2.0");
           ("result", JObject [("pong", JString "success")]);
           ("error", JObject [("errorCode", JNumber 10001);
                              ("errorMessage", JString "Internal Error")])].

Definition twoPings : list (string * JsVal) :=
  [("ping1", JObject [("v1", JNumber 1001)]);
   ("ping2", JObject [("v2", JString "777")])].

Definition pong1 : JsVal :=
  JObject [("jsonrpc", JString "2.0"); ("result", JObject [("pong1", JString "success")])].
Definition pong2 : JsVal :=
  JObject [("jsonrpc", JString "2.0"); ("result", JObject [("pong2", JString "success")])].

(** A transaction id as the Starcoin node returns it: [0x] and 64 hex
    digits. *)
Definition txid66 : string :=
  "0x10a100c1af364e42dd729c1163344c1fade3af5805ea991fa6a5b038f1b8acc4".

End Fixtures.

(* ===================================================================== *)
(** ** Vocabulary of the statements                                       *)
(* ===================================================================== *)

Module Observe.
Import Js Promise Controller.

(** What a settled call contributes to the slot of its input: its value,
    or nothing when it was rejected. *)
Definition slot {R} (p : Promise (option R)) : option R :=
  match p with
  | Settles _ (Fulfilled value) => value
  | _ => None
  end.

(** Every candidate answered, and answered [isReady: false]. *)
Definition allDisqualified (candidates : list BaseClient) (now : Z) : Prop :=
  Forall (fun candidate =>
            exists t info, getInfo candidate now = Settles t (Fulfilled info)
                           /\ isReady info = false) candidates.

(** The [getInfo] of every candidate failed. *)
Definition allFailed (candidates : list BaseClient) (now : Z) : Prop :=
  Forall (fun candidate =>
            exists t e, getInfo candidate now = Settles t (Rejected e)) candidates.

(** The ten-second delay settles before the race among the candidates. *)
Definition delayFirst (candidates : list BaseClient) (now : Z) : Prop :=
  match createAnyPromise (map (readinessCheck now) candidates) with
  | Settles t _ => (10000 < t)%N
  | Never => True
  end.

End Observe.

(* ===================================================================== *)
(** ** [ProviderController]: the dispatch methods                         *)
(* ===================================================================== *)

Module Dispatch.
Import Js Promise Controller.

Section Forwarding.

Variable chainSelector : string -> ChainInfo.
Variable require : string -> ChainModule.

(** [this.getClient(chainCode).then((client) => client.method(...))], the
    shape of [getInfo], [getAddresses], [getBalances],
    [getTransactionStatuses], [getFeePricePerUnit],
    [broadcastTransaction], [getTokenInfos] and [getUTXOs].  The method
    of the resolved client is invoked at the instant [getClient]
    settles. *)
Definition forward {A} (method : BaseClient -> Z -> Promise A)
    (self : ProviderController) (chainCode : string) (now : Z) : Promise A :=
  match settlement (getClient chainSelector require self chainCode None now) with
  | Settles t (Fulfilled client) => later t (method client (now + Z.of_N t)%Z)
  | Settles t (Rejected e) => Settles t (Rejected e)
  | Never => Never
  end.

(** [ProviderController.getInfo]. *)
Definition getInfo (self : ProviderController) (chainCode : string) (now : Z)
  : Promise ClientInfo :=
  forward (fun client at_ => Controller.getInfo client at_) self chainCode now.

End Forwarding.

End Dispatch.

(* ===================================================================== *)
(** ** [BaseClient] and [SimpleClient]: the other methods                 *)
(* ===================================================================== *)

Module Simple.
Import Js Promise Abc.

(** [BaseClient.getTokenInfos] and [BaseClient.getUTXOs]. *)
Definition baseGetTokenInfos {PartialTokenInfo : Type} (tokenAddresses : list string)
  : Promise (list (option PartialTokenInfo)) :=
  reject NotImplementedError.

Definition baseGetUTXOs {UTXO : Type} (addresses : list string)
  : Promise (Dict (list UTXO)) :=
  reject NotImplementedError.

Section SimpleClient.
Context {AddressInfo BigNumber CoinInfo TransactionStatus PartialTokenInfo : Type}.

(** [res.balance]. *)
Variable balance : AddressInfo -> BigNumber.

(** The abstract methods a chain supplies. *)
Variable getAddress : string -> Promise AddressInfo.
Variable getTransactionStatus : string -> Promise TransactionStatus.

(** [{ address: string; coin: Partial<CoinInfo> }]. *)
Record BalanceRequest : Type := mkBalanceRequest {
  address : string;
  coin : CoinInfo;
}.

Definition getAddresses (addresses : list string) : Promise (list (option AddressInfo)) :=
  batchCall2SingleCall addresses (fun i => Some <$> getAddress i).

Definition getBalance (address : string) (coin : CoinInfo) : Promise BigNumber :=
  balance <$> getAddress address.

Definition getBalances (requests : list BalanceRequest) : Promise (list (option BigNumber)) :=
  batchCall2SingleCall requests (fun i => Some <$> getBalance (address i) (coin i)).

Definition getTransactionStatuses (txids : list string)
  : Promise (list (option TransactionStatus)) :=
  batchCall2SingleCall txids (fun i => Some <$> getTransactionStatus i).

(** [SimpleClient.getTokenInfo], unless a chain overrides it. *)
Definition defaultGetTokenInfo (tokenAddress : string) : Promise (option PartialTokenInfo) :=
  reject NotImplementedError.

Definition getTokenInfos (getTokenInfo : string -> Promise (option PartialTokenInfo))
    (tokenAddresses : list string) : Promise (list (option PartialTokenInfo)) :=
  batchCall2SingleCall tokenAddresses getTokenInfo.

End SimpleClient.

End Simple.

(* ===================================================================== *)
(** ** [StcClient]: the other methods                                     *)
(* ===================================================================== *)

Module Stc.
Import Js Promise.

(** The members of the enumeration [TransactionStatus]
    ([src/types/provider.ts], not among the sources) that the client
    produces. *)
Inductive TransactionStatus : Type :=
| NOT_FOUND
| PENDING
| CONFIRM_AND_SUCCESS
| CONFIRM_BUT_FAILED.

(** Truthiness of a value in a condition. *)
Definition truthy (v : JsVal) : bool :=
  match v with
  | JUndefined => false
  | JNull => false
  | JBool b => b
  | JNumber n => negb (n =? 0)%Z
  | JString s => negb (String.eqb s EmptyString)
  | JArray _ => true
  | JObject _ => true
  end.

(** [v === undefined || v === null], the test behind [??] and [?.]. *)
Definition isNullish (v : JsVal) : bool :=
  match v with
  | JUndefined => true
  | JNull => true
  | _ => false
  end.

(** [a ?? b]. *)
Definition orElse (a b : JsVal) : JsVal := if isNullish a then b else a.

(** The [TypeError] thrown for a property read on [undefined] or
    [null]. *)
Definition typeError (key : string) : Error :=
  PlainError ("Cannot read properties of undefined (reading '" +:+ key +:+ "')").

(** [v.key] for the keys the client reads ([json], [token], [value],
    [sequence_number], [status], [gas_used]), none of which is a built-in
    property of strings, numbers, booleans or arrays: a throw on
    [undefined] and [null], the own property of an object, [undefined]
    otherwise. *)
Definition member (key : string) (v : JsVal) : Outcome JsVal :=
  match v with
  | JUndefined => Rejected (typeError key)
  | JNull => Rejected (typeError key)
  | JObject fields => Fulfilled (default JUndefined (assoc key fields))
  | _ => Fulfilled JUndefined
  end.

(** [array.map(f)] with a callback that may throw: the first throw ends
    the iteration. *)
Fixpoint mapThrowing {A B} (f : A -> Outcome B) (items : list A) : Outcome (list B) :=
  match items with
  | [] => Fulfilled []
  | item :: rest =>
      match f item with
      | Rejected e => Rejected e
      | Fulfilled y =>
          match mapThrowing f rest with
          | Rejected e => Rejected e
          | Fulfilled ys => Fulfilled (y :: ys)
          end
      end
  end.

(** The end of an [async] body: a returned value or a throw. *)
Definition settle {A} (o : Outcome A) : Promise A := Settles 0%N o.

Section StcClient.

(** [bignumber.js]: [new BigNumber(value)]. *)
Context {BigNumber : Type}.
Variable bigNumber : JsVal -> BigNumber.

(** [new BigNumber(parseInt(value))]. *)
Variable bigNumberOfParsedInt : JsVal -> BigNumber.

(** [this.rpc.call(method, params)] and [this.rpc.batchCall(calls)]. *)
Variable rpcCall : string -> JsVal -> Promise JsVal.
Variable rpcBatchCall : list (string * JsVal) -> Promise (list JsVal).

(** *** [getTransactionStatuses] *)

Definition statusCalls (txids : list string) : list (string * JsVal) :=
  foldl (fun acc cur =>
           (acc ++ [("txpool.pending_txn", JArray [JString cur]);
                    ("chain.get_transaction_info", JArray [JString cur])])%list)
        [] txids.

(** The body of the loop for one pair of replies. *)
Definition statusOf (pendingTx receipt : JsVal) : option TransactionStatus :=
  if negb (String.eqb (typeof receipt) "undefined")
     && negb (String.eqb (typeof pendingTx) "undefined")
  then
    if strictEq pendingTx JNull && strictEq receipt JNull then Some NOT_FOUND
    else if truthy pendingTx then Some PENDING
    else
      let status :=
        if isNullish receipt then JUndefined
        else default JUndefined (get "status" receipt) in
      if strictEq status (JString "Executed")
      then Some CONFIRM_AND_SUCCESS
      else Some CONFIRM_BUT_FAILED
  else None.

(** [for (let i = 0; i < resp.length; i += 2)] over
    [resp.slice(i, i + 2)]. *)
Fixpoint statusLoop (resp : list JsVal) : list (option TransactionStatus) :=
  match resp with
  | [] => []
  | [pendingTx] => [statusOf pendingTx JUndefined]
  | pendingTx :: receipt :: rest => statusOf pendingTx receipt :: statusLoop rest
  end.

Definition getTransactionStatuses (txids : list string)
  : Promise (list (option TransactionStatus)) :=
  rpcBatchCall (statusCalls txids) ≫= fun resp =>
  resolve (statusLoop resp).

(** *** [getBalances] *)

(** [{ address, coin }], of which [coin.tokenAddress] is read. *)
Record BalanceRequest : Type := mkBalanceRequest {
  address : string;
  tokenAddress : option string;
}.

Definition balanceCalls (requests : list BalanceRequest) : list (string * JsVal) :=
  map (fun req =>
         ("state.get_resource",
          JArray [JString (address req);
                  JString ("0x1::Account::Balance<"
                             +:+ default "0x1::STC::STC" (tokenAddress req) +:+ ">");
                  JObject [("decode", JBool true)]]))
      requests.

(** [resp?.json.token.value]: the chain is cut short on a nullish
    [resp]; further down a missing link throws. *)
Definition tokenValue (resp : JsVal) : Outcome JsVal :=
  if isNullish resp then Fulfilled JUndefined
  else
    match member "json" resp with
    | Rejected e => Rejected e
    | Fulfilled json =>
        match member "token" json with
        | Rejected e => Rejected e
        | Fulfilled token => member "value" token
        end
    end.

Definition balanceOfReply (resp : JsVal) : Outcome (option BigNumber) :=
  if negb (String.eqb (typeof resp) "undefined")
  then
    match tokenValue resp with
    | Rejected e => Rejected e
    | Fulfilled value => Fulfilled (Some (bigNumber (orElse value (JNumber 0))))
    end
  else Fulfilled None.

Definition getBalances (requests : list BalanceRequest)
  : Promise (list (option BigNumber)) :=
  rpcBatchCall (balanceCalls requests) ≫= fun resps =>
  settle (mapThrowing balanceOfReply resps).

(** *** [getAddresses] *)

Record AddressInfo : Type := mkAddressInfo {
  balance : BigNumber;
  nonce : JsVal;
  existing : bool;
}.

(** [Math.max(a, b)]. *)
Variable mathMax : JsVal -> JsVal -> JsVal.

Definition addressCalls (addresses : list string) : list (string * JsVal) :=
  foldl (fun acc cur =>
           (acc ++ [("state.get_resource",
                     JArray [JString cur; JString "0x1::Account::Account";
                             JObject [("decode", JBool true)]]);
                    ("txpool.next_sequence_number", JArray [JString cur]);
                    ("state.get_resource",
                     JArray [JString cur; JString "0x1::Account::Balance<0x1::STC::STC>";
                             JObject [("decode", JBool true)]])])%list)
        [] addresses.

(** [state?.json.sequence_number]. *)
Definition sequenceNumber (state : JsVal) : Outcome JsVal :=
  if isNullish state then Fulfilled JUndefined
  else
    match member "json" state with
    | Rejected e => Rejected e
    | Fulfilled json => member "sequence_number" json
    end.

(** The body of the loop for one triple of replies. *)
Definition infoOf (state nextSequenceNumber _balance : JsVal) : Outcome (option AddressInfo) :=
  if negb (String.eqb (typeof state) "undefined")
     && negb (String.eqb (typeof nextSequenceNumber) "undefined")
     && negb (String.eqb (typeof _balance) "undefined")
  then
    match tokenValue _balance with
    | Rejected e => Rejected e
    | Fulfilled value =>
        let balance := bigNumber (orElse value (JNumber 0)) in
        let existing := if strictEq state JNull then false else true in
        match sequenceNumber state with
        | Rejected e => Rejected e
        | Fulfilled sequence =>
            let nonce := mathMax (orElse sequence (JNumber 0))
                                 (orElse nextSequenceNumber (JNumber 0)) in
            Fulfilled (Some (mkAddressInfo balance nonce existing))
        end
    end
  else Fulfilled None.

(** [for (let i = 0; i < resp.length; i += 3)] over
    [resp.slice(i, i + 3)]; a last slice of one or two replies leaves
    the others [undefined]. *)
Fixpoint addressLoop (resp : list JsVal) : Outcome (list (option AddressInfo)) :=
  match resp with
  | [] => Fulfilled []
  | state :: nextSequenceNumber :: _balance :: rest =>
      match infoOf state nextSequenceNumber _balance with
      | Rejected e => Rejected e
      | Fulfilled info =>
          match addressLoop rest with
          | Rejected e => Rejected e
          | Fulfilled infos => Fulfilled (info :: infos)
          end
      end
  | [state; nextSequenceNumber] =>
      match infoOf state nextSequenceNumber JUndefined with
      | Rejected e => Rejected e
      | Fulfilled info => Fulfilled [info]
      end
  | [state] =>
      match infoOf state JUndefined JUndefined with
      | Rejected e => Rejected e
      | Fulfilled info => Fulfilled [info]
      end
  end.

Definition getAddresses (addresses : list string) : Promise (list (option AddressInfo)) :=
  rpcBatchCall (addressCalls addresses) ≫= fun resp =>
  settle (addressLoop resp).

(** *** [estimateGasLimit] *)

Definition DEFAULT_GAS_LIMIT : Z := 127845.

Definition estimateGasLimit (params : JsVal) : Promise BigNumber :=
  rpcCall "contract.dry_run" (JArray [params]) ≫= fun resp =>
  let status :=
    if isNullish resp then JUndefined
    else default JUndefined (get "status" resp) in
  if strictEq status (JString "Executed")
  then resolve (bigNumberOfParsedInt (default JUndefined (get "gas_used" resp)))
  else resolve (bigNumber (JNumber DEFAULT_GAS_LIMIT)).

End StcClient.

End Stc.

(* ===================================================================== *)
(** ** The NEAR provider: addresses                                       *)
(* ===================================================================== *)

From Stdlib Require Import Ascii.
From Stdlib.Strings Require Import Byte.

Module Near.

(** *** Regular expressions without flags, anchored at both ends *)

Inductive Regex : Type :=
| Void                          (* matches nothing *)
| Eps                           (* the empty pattern *)
| Class (member : ascii -> bool)  (* [...] *)
| Cat (r s : Regex)             (* rs *)
| Alt (r s : Regex)             (* r|s *)
| Star (r : Regex).             (* r* *)

(** [r+] and [r{n}]. *)
Definition Plus (r : Regex) : Regex := Cat r (Star r).

Fixpoint Times (n : nat) (r : Regex) : Regex :=
  match n with
  | O => Eps
  | S n' => Cat r (Times n' r)
  end.

(** The strings a pattern matches from end to end. *)
Inductive Matches : Regex -> list ascii -> Prop :=
| MEps : Matches Eps []
| MClass member c : member c = true -> Matches (Class member) [c]
| MCat r s x y : Matches r x -> Matches s y -> Matches (Cat r s) (x ++ y)
| MAltL r s x : Matches r x -> Matches (Alt r s) x
| MAltR r s x : Matches s x -> Matches (Alt r s) x
| MStarNil r : Matches (Star r) []
| MStarCons r x y : Matches r x -> Matches (Star r) y -> Matches (Star r) (x ++ y).

(** Matching by derivatives. *)
Fixpoint nullable (r : Regex) : bool :=
  match r with
  | Void => false
  | Eps => true
  | Class _ => false
  | Cat r s => nullable r && nullable s
  | Alt r s => nullable r || nullable s
  | Star _ => true
  end.

Fixpoint deriv (c : ascii) (r : Regex) : Regex :=
  match r with
  | Void => Void
  | Eps => Void
  | Class member => if member c then Eps else Void
  | Cat r s => if nullable r then Alt (Cat (deriv c r) s) (deriv c s) else Cat (deriv c r) s
  | Alt r s => Alt (deriv c r) (deriv c s)
  | Star r => Cat (deriv c r) (Star r)
  end.

Fixpoint accepts (r : Regex) (chars : list ascii) : bool :=
  match chars with
  | [] => nullable r
  | c :: rest => accepts (deriv c r) rest
  end.

(** [/^r$/.test(text)]. *)
Definition test (r : Regex) (text : string) : bool :=
  accepts r (list_ascii_of_string text).

(** [[a-z\d]], [[-_]] and [\.]. *)
Definition lowerOrDigit (c : ascii) : bool :=
  let n := nat_of_ascii c in
  ((97 <=? n)%nat && (n <=? 122)%nat) || ((48 <=? n)%nat && (n <=? 57)%nat).

Definition dashOrUnderscore (c : ascii) : bool :=
  Ascii.eqb c "-" || Ascii.eqb c "_".

Definition dot (c : ascii) : bool := Ascii.eqb c ".".

(** [/^[a-z\d]{64}$/]. *)
Definition IMPLICIT_ACCOUNT_PATTERN : Regex := Times 64 (Class lowerOrDigit).

(** [/^(([a-z\d]+[-_])*[a-z\d]+\.)*([a-z\d]+[-_])*[a-z\d]+$/]. *)
Definition REGISTER_ACCOUNT_PATTERN : Regex :=
  Cat (Star (Cat (Cat (Star (Cat (Plus (Class lowerOrDigit)) (Class dashOrUnderscore)))
                      (Plus (Class lowerOrDigit)))
                 (Class dot)))
      (Cat (Star (Cat (Plus (Class lowerOrDigit)) (Class dashOrUnderscore)))
           (Plus (Class lowerOrDigit))).

(** *** Strings *)

(** [text.split(separator)] for a separator of one character. *)
Fixpoint splitOn (separator : ascii) (chars : list ascii) : list (list ascii) :=
  match chars with
  | [] => [[]]
  | c :: rest =>
      if Ascii.eqb c separator then [] :: splitOn separator rest
      else
        match splitOn separator rest with
        | piece :: pieces => (c :: piece) :: pieces
        | [] => [[c]]
        end
  end.

Definition split (separator : ascii) (text : string) : list string :=
  map string_of_list_ascii (splitOn separator (list_ascii_of_string text)).

(** [text.includes(separator)] for a separator of one character. *)
Definition includes (separator : ascii) (text : string) : bool :=
  existsb (Ascii.eqb separator) (list_ascii_of_string text).

(** [buffer.toString('hex')]. *)
Definition hexDigit (n : N) : ascii :=
  nth (N.to_nat n) (list_ascii_of_string "0123456789abcdef") "0"%char.

Definition hexOfByte (b : Byte.byte) : list ascii :=
  [hexDigit (Byte.to_N b / 16); hexDigit (Byte.to_N b mod 16)].

Definition toHex (bytes : list Byte.byte) : string :=
  string_of_list_ascii (flat_map hexOfByte bytes).

(** *** The provider *)

Record AddressValidation : Type := mkValidation {
  isValid : bool;
  normalizedAddress : option string;
  displayAddress : option string;
  encoding : option string;
}.

Definition valid (address encoding : string) : AddressValidation :=
  mkValidation true (Some address) (Some address) (Some encoding).

Definition invalid : AddressValidation := mkValidation false None None None.

Section Provider.

(** [baseEncode] and [baseDecode] of [borsh] (base 58); the decoder
    throws on a string that is not base 58. *)
Variable baseEncode : list Byte.byte -> string.
Variable baseDecode : string -> option (list Byte.byte).

(** The branch for an address with a colon:
    [const [prefix, encoded] = address.split(':')], the test inside
    [try], and the [catch] that ignores a throw of the decoder. *)
Definition encodedPubkey (address : string) : bool :=
  let parts := split ":" address in
  let prefix := parts !! 0%nat in
  let encoded := parts !! 1%nat in
  match prefix, encoded with
  | Some prefix, Some encoded =>
      if String.eqb prefix "ed25519"
      then match baseDecode encoded with
           | Some bytes => (length bytes =? 32)%nat
           | None => false
           end
      else false
  | _, _ => false
  end.

Definition verifyAddress (address : string) : AddressValidation :=
  if test IMPLICIT_ACCOUNT_PATTERN address then valid address "IMPLICIT_ACCOUNT"
  else if test REGISTER_ACCOUNT_PATTERN address then valid address "REGISTER_ACCOUNT"
  else if includes ":" address && encodedPubkey address then valid address "ENCODED_PUBKEY"
  else invalid.

(** [pubkeyToAddress], for the public key the verifier hands out. *)
Definition pubkeyToAddress (pubkey : list Byte.byte) (encoding : option string) : string :=
  if match encoding with
     | Some encoding => String.eqb encoding "ENCODED_PUBKEY"
     | None => false
     end
  then "ed25519:" +:+ baseEncode pubkey
  else toHex pubkey.

End Provider.

(** *** What an account name looks like *)

(** A scan from left to right that remembers whether the previous
    character was a lower-case letter or a digit: a separator ([-], [_]
    or [.]) is allowed only after one, and the name must end on one. *)
Fixpoint wellFormedFrom (afterWord : bool) (chars : list ascii) : bool :=
  match chars with
  | [] => afterWord
  | c :: rest =>
      if lowerOrDigit c then wellFormedFrom true rest
      else if dashOrUnderscore c || dot c then afterWord && wellFormedFrom false rest
      else false
  end.

(** The characters of an account name. *)
Definition allowedChar (c : ascii) : bool :=
  lowerOrDigit c || dashOrUnderscore c || dot c.

Definition wellFormed (address : string) : bool :=
  wellFormedFrom false (list_ascii_of_string address).

End Near.


(* ===================================================================== *)
(** ** The fan-out adapter and handlers that throw                        *)
(* ===================================================================== *)

Module Throwing.
Import Js Promise Abc.

Section BatchCall2SingleCall.
Context {T R : Type}.

(** A call of the handler as JavaScript runs it: it either returns a
    promise ([Fulfilled]) or throws before it has returned one
    ([Rejected], with what it threw). *)
Definition Handler : Type := T -> Outcome (Promise (option R)).

(** [SimpleClient.batchCall2SingleCall] for such handlers.
    [inputs.map(handler)] makes the calls in the order of the inputs,
    inside the body of the [async] function: the first call that throws
    ends the loop, and the throw becomes the rejection of the promise
    the adapter has returned.  Otherwise the promises are awaited as in
    [Abc.batchCall2SingleCall]. *)
Definition batchCall2SingleCall (inputs : list T) (handler : Handler)
  : Promise (list (option R)) :=
  match Stc.mapThrowing handler inputs with
  | Rejected thrown => reject thrown
  | Fulfilled promises => allSettled promises ≫= assemble inputs
  end.

End BatchCall2SingleCall.

End Throwing.
(* ===================================================================== *)
(** * Properties                                                          *)
(* ===================================================================== *)

(** ** Promises *)

Import Js Promise JsonRpc Abc Starcoin Controller Observe.

Section PromiseFacts.
Context {A : Type}.
Implicit Types (p q : Promise A) (ps : list (Promise A)).

Lemma later_0 p : later 0 p = p.
Proof. destruct p; simpl; [f_equal|]; done. Qed.

Lemma andThen_fulfilled {B} (k : A -> Promise B) t v :
  Settles t (Fulfilled v) ≫= k = later t (k v).
Proof. reflexivity. Qed.

Lemma andThen_rejected {B} (k : A -> Promise B) t e :
  Settles t (Rejected e) ≫= k = Settles t (Rejected e).
Proof. reflexivity. Qed.

Lemma later_resolve {B} t (v : B) : later t (resolve v) = Settles t (Fulfilled v).
Proof. unfold resolve; simpl. by rewrite N.add_0_r. Qed.

Lemma later_reject {B} t e : later t (@reject B e) = Settles t (Rejected e).
Proof. unfold reject; simpl. by rewrite N.add_0_r. Qed.

Lemma settleAll_length ps t os : settleAll ps = Some (t, os) -> length os = length ps.
Proof.
  revert t os; induction ps as [|[ti o|] ps IH]; intros t os H; simpl in H.
  - by inversion H.
  - destruct (settleAll ps) as [[t' os']|] eqn:E; [|done].
    inversion H; subst; simpl. f_equal. by eapply IH.
  - done.
Qed.

Lemma settleAll_settled ps :
  Forall (fun p => settled p = true) ps -> exists t os, settleAll ps = Some (t, os).
Proof.
  induction 1 as [|[ti o|] ps Hp _ IH]; simpl.
  - by eexists _, _.
  - destruct IH as (t & os & ->). by eexists _, _.
  - done.
Qed.

Lemma settleAll_lookup ps t os i p :
  settleAll ps = Some (t, os) -> ps !! i = Some p ->
  exists ti o, p = Settles ti o /\ os !! i = Some o /\ (ti <= t)%N.
Proof.
  revert t os i; induction ps as [|[tj oj|] ps IH]; intros t os i H Hi; simpl in H.
  - done.
  - destruct (settleAll ps) as [[t' os']|] eqn:E; [|done].
    inversion H; subst; clear H.
    destruct i as [|i]; simpl in Hi.
    + inversion Hi; subst. exists tj, oj. repeat split; lia.
    + destruct (IH _ _ _ eq_refl Hi) as (ti & o & -> & Ho & Hle).
      exists ti, o. repeat split; [done | lia].
  - done.
Qed.

Lemma settleAll_unsettled ps : settleAll ps = None -> Never ∈ ps.
Proof.
  induction ps as [|[ti o|] ps IH]; simpl; intros H.
  - done.
  - destruct (settleAll ps) as [[t' os']|]; [done|]. right. by apply IH.
  - left.
Qed.

(** Whoever wins a race is one of the runners. *)
Lemma race_elem ps t o : race ps = Settles t o -> Settles t o ∈ ps.
Proof.
  induction ps as [|p ps IH]; simpl; [done|].
  unfold earlier at 1. destruct p as [tp op|].
  - destruct (race ps) as [tq oq|] eqn:E.
    + destruct (tp <=? tq)%N; intros H; inversion H; subst; [left | right; by apply IH].
    + intros H; inversion H; subst; left.
  - intros H. right. by apply IH.
Qed.

Lemma race_never ps : race ps = Never -> Forall (fun p => p = Never) ps.
Proof.
  induction ps as [|p ps IH]; simpl; [constructor|].
  unfold earlier at 1. destruct p as [tp op|].
  - destruct (race ps) as [tq oq|]; [destruct (tp <=? tq)%N|]; done.
  - intros H. constructor; [done | by apply IH].
Qed.

(** The first to fulfil is a member that fulfils. *)
Lemma createAnyPromise_fulfilled ps t v :
  createAnyPromise ps = Settles t (Fulfilled v) -> Settles t (Fulfilled v) ∈ ps.
Proof.
  unfold createAnyPromise.
  destruct (race (List.filter fulfils ps)) as [t' o'|] eqn:E.
  - intros H; inversion H; subst. apply race_elem in E.
    apply list_elem_of_In, filter_In in E as [E _]. by apply list_elem_of_In.
  - destruct (settleAll ps) as [[t' os]|]; done.
Qed.

End PromiseFacts.

(** ** The fan-out adapter *)

Section FanOut.
Context {T R : Type}.
Implicit Types (inputs : list T) (handler : T -> Promise (option R)).

Lemma assemble_same_length inputs (outputs : list (Outcome (option R))) :
  length inputs = length outputs ->
  assemble inputs outputs =
    resolve (map (fun result => match result with
                                | Fulfilled value => value
                                | Rejected _ => None
                                end) outputs).
Proof.
  intros H. unfold assemble, check.
  apply Nat.eqb_eq in H as ->. reflexivity.
Qed.

Lemma assemble_other_length inputs (outputs : list (Outcome (option R))) :
  length inputs <> length outputs ->
  exists message, assemble inputs outputs = reject (PreconditionError (Some message)).
Proof.
  intros H. unfold assemble, check.
  apply Nat.eqb_neq in H as ->. eexists. reflexivity.
Qed.

Lemma settleAll_slots (ps : list (Promise (option R))) t os :
  settleAll ps = Some (t, os) ->
  map (fun result => match result with
                     | Fulfilled value => value
                     | Rejected _ => None
                     end) os = map slot ps.
Proof.
  revert t os; induction ps as [|[ti o|] ps IH]; intros t os H; simpl in H.
  - by inversion H.
  - destruct (settleAll ps) as [[t' os']|] eqn:E; [|done].
    inversion H; subst; simpl. rewrite (IH _ _ eq_refl). by destruct o.
  - done.
Qed.

(** Once every call has settled the adapter fulfils, slot by slot. *)
Lemma batchCall2SingleCall_slots inputs handler :
  Forall (fun x => settled (handler x) = true) inputs ->
  exists t, batchCall2SingleCall inputs handler
            = Settles t (Fulfilled (map (fun x => slot (handler x)) inputs)).
Proof.
  intros Hall.
  destruct (settleAll_settled (map handler inputs)) as (t & os & E).
  { by apply Forall_map. }
  exists t. unfold batchCall2SingleCall, allSettled. rewrite E.
  rewrite andThen_fulfilled, assemble_same_length, later_resolve.
  - by rewrite (settleAll_slots _ _ _ E), map_map.
  - apply settleAll_length in E. by rewrite E, length_map.
Qed.

(** A call that never settles keeps the whole batch pending. *)
Lemma batchCall2SingleCall_pending inputs handler x :
  x ∈ inputs -> handler x = Never -> batchCall2SingleCall inputs handler = Never.
Proof.
  intros Hx Hn. unfold batchCall2SingleCall, allSettled.
  destruct (settleAll (map handler inputs)) as [[t os]|] eqn:E; [|done].
  apply list_elem_of_lookup in Hx as [i Hi].
  destruct (settleAll_lookup (map handler inputs) t os i (handler x) E) as (ti & o & Hp & _).
  { by rewrite list_lookup_fmap, Hi. }
  congruence.
Qed.

End FanOut.

(** C3 (as amended).  Whenever every per-item call settles, the adapter
    fulfils with a list of the length of the input.  The slot of a failed
    item is absent, the slot of a fulfilled item holds the handler's value
    verbatim (which the handler's type allows to be absent as well), so a
    failing item never keeps a sibling's value from being collected; and
    an output count that differs from the input count fails the defensive
    check. *)
Theorem batchCall2SingleCall_fan_out
    {T R : Type} (inputs : list T) (handler : T -> Promise (option R)) :
  Forall (fun x => settled (handler x) = true) inputs ->
  exists t outputs,
    batchCall2SingleCall inputs handler = Settles t (Fulfilled outputs) /\
    length outputs = length inputs /\
    (forall i x, inputs !! i = Some x ->
       (rejects (handler x) = true -> outputs !! i = Some None) /\
       (forall ti value, handler x = Settles ti (Fulfilled value) ->
                         outputs !! i = Some value)) /\
    (forall results : list (Outcome (option R)),
       length inputs <> length results ->
       exists message,
         assemble inputs results = reject (PreconditionError (Some message))).
Proof.
  intros Hall.
  destruct (batchCall2SingleCall_slots inputs handler Hall) as [t E].
  exists t, (map (fun x => slot (handler x)) inputs).
  split; [done|]. split; [by rewrite length_map|]. split.
  - intros i x Hi. rewrite list_lookup_fmap, Hi. simpl. split.
    + destruct (handler x) as [ti [v|e]|]; simpl; done.
    + by intros ti value ->.
  - apply assemble_other_length.
Qed.

Lemma batchCall2SingleCall_fan_out_witness :
  let handler := fun address : string =>
    if String.eqb address "0xa" then Settles 30 (Fulfilled (Some 7%nat))
    else if String.eqb address "0xb" then Settles 10 (Rejected NotImplementedError)
    else Settles 20 (Fulfilled None) in
  exists t outputs,
    batchCall2SingleCall ["0xa"; "0xb"; "0xc"] handler
      = Settles t (Fulfilled outputs) /\
    length outputs = 3%nat /\
    (forall i x, ["0xa"; "0xb"; "0xc"] !! i = Some x ->
       (rejects (handler x) = true -> outputs !! i = Some None) /\
       (forall ti value, handler x = Settles ti (Fulfilled value) ->
                         outputs !! i = Some value)) /\
    (forall results : list (Outcome (option nat)),
       3%nat <> length results ->
       exists message,
         assemble ["0xa"; "0xb"; "0xc"] results
           = reject (PreconditionError (Some message))).
Proof.
  intros handler.
  apply (batchCall2SingleCall_fan_out ["0xa"; "0xb"; "0xc"] handler).
  repeat constructor.
Defined.

(** C3 (as stated) fails: a handler may fulfil with the absent value, so
    an output slot can be absent although its call did not fail. *)
Lemma batchCall2SingleCall_absent_without_failure :
  let handler := fun _ : string => resolve (None : option nat) in
  batchCall2SingleCall ["0xa"] handler = Settles 0 (Fulfilled [None]) /\
  ~ (forall i x, ["0xa"] !! i = Some x ->
       ([None : option nat] !! i = Some None <-> rejects (handler x) = true)).
Proof.
  intros handler. split; [reflexivity|].
  intros H. destruct (H 0%nat "0xa" eq_refl) as [H1 _].
  specialize (H1 eq_refl). discriminate H1.
Qed.

(** ** [getUTXOs] *)

Section UTXOs.
Context {UTXO : Type}.
Implicit Types (acc : Dict (list UTXO)) (calls : list (nat * string))
               (G : nat -> string -> option (list UTXO)).

(** What the reduction does with the slot of one call. *)
Local Abbreviation put G :=
  (fun (acc : Dict (list UTXO)) (call : nat * string) =>
     assign call.2 (default [] (G call.1 call.2)) acc).

Lemma entries_assign (key : string) (value : list UTXO) acc a :
  a <> "__proto__" ->
  entries (assign key value acc) !! a
    = if decide (a = key) then Some value else entries acc !! a.
Proof.
  intros Ha. unfold assign.
  destruct (decide (key = "__proto__")) as [->|Hkey]; cbn [entries].
  - by rewrite decide_False.
  - destruct (decide (a = key)) as [->|Hne].
    + by rewrite lookup_insert_eq.
    + by rewrite lookup_insert_ne.
Qed.

Lemma entries_assign_proto (key : string) (value : list UTXO) acc :
  entries (assign key value acc) !! "__proto__" = entries acc !! "__proto__".
Proof.
  unfold assign. destruct (decide (key = "__proto__")) as [->|Hkey]; cbn [entries]; [done|].
  by rewrite lookup_insert_ne.
Qed.

(** The reduction over the outputs visits the calls in order. *)
Lemma reduceFrom_putUTXOs G addresses :
  forall pre acc,
    reduceFrom (length pre) (putUTXOs (pre ++ addresses)) acc
      (map (fun call : nat * string => G call.1 call.2)
           (imap (fun index a => ((length pre + index)%nat, a)) addresses))
    = foldl (put G) acc (imap (fun index a => ((length pre + index)%nat, a)) addresses).
Proof.
  induction addresses as [|a l IH]; intros pre acc; [done|].
  rewrite imap_cons. cbn [map reduceFrom foldl fst snd].
  unfold putUTXOs at 2. rewrite list_lookup_middle by done. cbn [default].
  specialize (IH (pre ++ [a])%list (assign a (default [] (G (length pre + 0)%nat a)) acc)).
  rewrite <- (assoc_L (++)) in IH. cbn [app] in IH.
  assert (imap (fun index b => ((length (pre ++ [a]) + index)%nat, b)) l
          = imap ((fun index b => ((length pre + index)%nat, b)) ∘ S) l) as E.
  { apply imap_ext. intros i b _. cbn. rewrite length_app. cbn. f_equal. lia. }
  rewrite E in IH. rewrite length_app in IH. cbn [length] in IH.
  replace (length pre + 1)%nat with (S (length pre)) in IH by lia.
  exact IH.
Qed.

(** The last call made for an address decides its entry. *)
Lemma foldl_put_lookup G calls :
  forall acc a k index,
    a <> "__proto__" ->
    calls !! k = Some (index, a) ->
    (forall k' call, (k < k')%nat -> calls !! k' = Some call -> call.2 <> a) ->
    entries (foldl (put G) acc calls) !! a = Some (default [] (G index a)).
Proof.
  induction calls as [|call calls IH] using rev_ind; intros acc a k index Ha Hk Hlast; [done|].
  rewrite foldl_app. cbn [foldl]. rewrite entries_assign by done.
  destruct (decide (k = length calls)) as [->|Hne].
  - rewrite list_lookup_middle in Hk by done. inversion Hk; subst. cbn [fst snd].
    by rewrite decide_True.
  - assert (k < length calls)%nat as Hlt.
    { apply lookup_lt_Some in Hk. rewrite length_app in Hk. cbn in Hk. lia. }
    rewrite lookup_app_l in Hk by done.
    rewrite decide_False.
    + apply (IH acc a k index Ha Hk). intros k' c Hk' Hc.
      apply (Hlast k' c Hk'). rewrite lookup_app_l; [done|]. by apply lookup_lt_Some in Hc.
    + intros ->. apply (Hlast (length calls) call Hlt); [|done].
      by rewrite list_lookup_middle.
Qed.

(** The keys, [__proto__] aside, are those already there and the
    addresses of the calls. *)
Lemma foldl_put_is_Some G calls :
  forall acc a,
    a <> "__proto__" ->
    is_Some (entries (foldl (put G) acc calls) !! a)
    <-> is_Some (entries acc !! a) \/ exists call, call ∈ calls /\ call.2 = a.
Proof.
  induction calls as [|call calls IH] using rev_ind; intros acc a Ha.
  - cbn [foldl]. split; [by left|]. intros [H|(c & Hc & _)]; [done|].
    by apply elem_of_nil in Hc.
  - rewrite foldl_app. cbn [foldl]. rewrite entries_assign by done.
    destruct (decide (a = call.2)) as [->|Hne].
    + split; [|by eexists]. intros _. right. exists call. split; [|done].
      apply elem_of_app. right. by left.
    + rewrite IH by done. split.
      * intros [H|(c & Hc & Hca)]; [by left|]. right. exists c. split; [|done].
        apply elem_of_app. by left.
      * intros [H|(c & Hc & Hca)]; [by left|].
        apply elem_of_app in Hc as [Hc|Hc]; [right; by exists c|].
        apply list_elem_of_singleton in Hc as ->. by subst.
Qed.

(** Every entry is one already there or the outcome of a call for its
    address. *)
Lemma foldl_put_value G calls :
  forall acc a found,
    entries (foldl (put G) acc calls) !! a = Some found ->
    entries acc !! a = Some found \/
    exists call, call ∈ calls /\ call.2 = a /\ found = default [] (G call.1 call.2).
Proof.
  induction calls as [|call calls IH] using rev_ind; intros acc a found; [by left|].
  rewrite foldl_app. cbn [foldl]. unfold assign at 1.
  assert (entries (foldl (put G) acc calls) !! a = Some found ->
          entries acc !! a = Some found \/
          exists c, c ∈ (calls ++ [call])%list /\ c.2 = a
                    /\ found = default [] (G c.1 c.2)) as Hrest.
  { intros H. destruct (IH acc a found H) as [Hacc|(c & Hc & Hca & Hf)]; [by left|].
    right. exists c. split; [|done]. apply elem_of_app. by left. }
  destruct (decide (call.2 = "__proto__")) as [Hp|Hp]; cbn [entries]; [done|].
  destruct (decide (a = call.2)) as [->|Hne].
  - rewrite lookup_insert_eq. intros H; inversion H; subst. right. exists call.
    split; [|done]. apply elem_of_app. right. by left.
  - by rewrite lookup_insert_ne.
Qed.

(** An assignment to [__proto__] never adds an entry. *)
Lemma foldl_put_proto G calls :
  forall acc,
    entries (foldl (put G) acc calls) !! "__proto__" = entries acc !! "__proto__".
Proof.
  induction calls as [|call calls IH] using rev_ind; intros acc; [done|].
  rewrite foldl_app. cbn [foldl]. by rewrite entries_assign_proto.
Qed.

(** Once every call has settled, [getUTXOs] fulfils with the reduction
    over the slots of the calls. *)
Lemma getUTXOs_unfold (getUTXO : nat -> string -> Promise (list UTXO)) addresses :
  (forall index a, addresses !! index = Some a -> settled (getUTXO index a) = true) ->
  exists t,
    getUTXOs getUTXO addresses
    = Settles t (Fulfilled
        (foldl (put (fun index a => slot (Some <$> getUTXO index a)))
               emptyDict (imap pair addresses))).
Proof.
  intros Hall.
  set (handler := fun call : nat * string => Some <$> getUTXO call.1 call.2).
  destruct (batchCall2SingleCall_slots (imap pair addresses) handler) as [t E].
  { apply Forall_forall. intros call Hin.
    apply elem_of_lookup_imap_1 in Hin as (index & a & -> & Hi).
    subst handler. cbn [fst snd]. specialize (Hall index a Hi).
    by destruct (getUTXO index a) as [ti [v|e]|]. }
  exists t. unfold getUTXOs. fold handler. rewrite E.
  rewrite andThen_fulfilled, later_resolve. do 2 f_equal.
  unfold reduce.
  exact (reduceFrom_putUTXOs (fun index a => slot (Some <$> getUTXO index a))
                             addresses [] emptyDict).
Qed.

End UTXOs.

(** C10 (as amended).  Once every per-address call has settled,
    [getUTXOs] fulfils with an object whose keys, [__proto__] aside, are
    exactly the input addresses.  Each such address holds the outcome of
    the last call made for it: the empty list when that call failed, and
    what the call found otherwise, so that a failed lookup reads like an
    address without UTXOs. *)
Theorem getUTXOs_one_entry_per_address
    {UTXO : Type} (getUTXO : nat -> string -> Promise.Promise (list UTXO))
    (addresses : list string) :
  (forall index a, addresses !! index = Some a -> settled (getUTXO index a) = true) ->
  exists t utxos,
    getUTXOs getUTXO addresses = Settles t (Fulfilled utxos) /\
    (forall a, a <> "__proto__" -> (is_Some (entries utxos !! a) <-> a ∈ addresses)) /\
    (forall index a,
       addresses !! index = Some a -> a <> "__proto__" ->
       (forall after, (index < after)%nat -> addresses !! after <> Some a) ->
       (rejects (getUTXO index a) = true -> entries utxos !! a = Some []) /\
       (forall ti found, getUTXO index a = Settles ti (Fulfilled found) ->
                         entries utxos !! a = Some found)).
Proof.
  intros Hall. destruct (getUTXOs_unfold getUTXO addresses Hall) as [t E].
  exists t. eexists. split; [exact E|]. split.
  - intros a Ha.
    rewrite (foldl_put_is_Some (fun index a => slot (Some <$> getUTXO index a))
               (imap pair addresses) emptyDict a Ha).
    cbn [entries emptyDict]. rewrite lookup_empty. split.
    + intros [[x Hx]|(call & Hin & Hc)]; [done|].
      apply elem_of_lookup_imap_1 in Hin as (index & b & -> & Hi). cbn in Hc. subst.
      by eapply list_elem_of_lookup_2.
    + intros Hin. right. apply list_elem_of_lookup in Hin as [index Hi].
      exists (index, a). split; [|done]. by apply (elem_of_lookup_imap_2 pair).
  - intros index a Hi Ha Hlast.
    assert (entries (foldl (fun (acc : Dict (list UTXO)) (call : nat * string) =>
                              assign call.2
                                (default [] (slot (Some <$> getUTXO call.1 call.2))) acc)
                           emptyDict (imap pair addresses)) !! a
            = Some (default [] (slot (Some <$> getUTXO index a)))) as ->.
    { apply (foldl_put_lookup (fun index a => slot (Some <$> getUTXO index a))
               (imap pair addresses) emptyDict a index index Ha).
      - by rewrite list_lookup_imap, Hi.
      - intros k' call Hk' Hc. rewrite list_lookup_imap in Hc.
        destruct (addresses !! k') as [b|] eqn:Hb; [|done].
        inversion Hc; subst. cbn. intros ->. by apply (Hlast k' Hk'). }
    split.
    + intros Hr. by destruct (getUTXO index a) as [ti [v|e]|].
    + intros ti found ->. reflexivity.
Qed.

Lemma getUTXOs_one_entry_per_address_witness :
  let getUTXO := fun (index : nat) (address : string) =>
    match index with
    | 0%nat => Settles 10 (Rejected NotImplementedError)
    | 1%nat => Settles 20 (Fulfilled [])
    | 2%nat => Settles 30 (Fulfilled [21%nat; 34%nat])
    | _ => Settles 5 (Fulfilled [55%nat])
    end in
  let addresses := ["bc1a"; "bc1b"; "bc1a"; "__proto__"] in
  exists t utxos,
    getUTXOs getUTXO addresses = Settles t (Fulfilled utxos) /\
    (forall a, a <> "__proto__" -> (is_Some (entries utxos !! a) <-> a ∈ addresses)) /\
    (forall index a,
       addresses !! index = Some a -> a <> "__proto__" ->
       (forall after, (index < after)%nat -> addresses !! after <> Some a) ->
       (rejects (getUTXO index a) = true -> entries utxos !! a = Some []) /\
       (forall ti found, getUTXO index a = Settles ti (Fulfilled found) ->
                         entries utxos !! a = Some found)).
Proof.
  intros getUTXO addresses.
  apply (getUTXOs_one_entry_per_address getUTXO addresses).
  intros [|[|[|index]]] a Hi; reflexivity.
Defined.

(** C10 (as stated) fails twice.  For the address [__proto__] the
    assignment replaces the prototype of the object and leaves it
    without an entry; and of two calls for one address the last one
    decides, so that an address with a failed call may hold UTXOs. *)
Lemma getUTXOs_entries_not_as_stated :
  (let getUTXO := fun (_ : nat) (_ : string) => resolve [7%nat] in
   getUTXOs getUTXO ["__proto__"] = resolve (mkDict ∅ (Some [7%nat])) /\
   ~ (exists t utxos,
        getUTXOs getUTXO ["__proto__"] = Settles t (Fulfilled utxos) /\
        forall a, a ∈ ["__proto__"] -> is_Some (entries utxos !! a))) /\
  (let getUTXO := fun (index : nat) (_ : string) =>
     match index with
     | 0%nat => reject NotImplementedError
     | _ => resolve [7%nat]
     end in
   getUTXOs getUTXO ["bc1a"; "bc1a"] = resolve (mkDict (<["bc1a" := [7%nat]]> ∅) None) /\
   ~ (exists t utxos,
        getUTXOs getUTXO ["bc1a"; "bc1a"] = Settles t (Fulfilled utxos) /\
        forall index a, ["bc1a"; "bc1a"] !! index = Some a ->
                        rejects (getUTXO index a) = true ->
                        entries utxos !! a = Some [])).
Proof.
  split; intros getUTXO.
  - assert (getUTXOs getUTXO ["__proto__"] = resolve (mkDict ∅ (Some [7%nat]))) as E
      by (vm_compute; reflexivity).
    split; [exact E|]. intros (t & utxos & E' & H).
    rewrite E in E'. inversion E'; subst.
    destruct (H "__proto__") as [x Hx]; [by left|].
    cbn [entries] in Hx. by rewrite lookup_empty in Hx.
  - assert (getUTXOs getUTXO ["bc1a"; "bc1a"]
            = resolve (mkDict (<["bc1a" := [7%nat]]> ∅) None)) as E
      by (vm_compute; reflexivity).
    split; [exact E|]. intros (t & utxos & E' & H).
    rewrite E in E'. inversion E'; subst.
    specialize (H 0%nat "bc1a" eq_refl eq_refl).
    cbn [entries] in H. by rewrite lookup_insert_eq in H.
Qed.

(** [SimpleClient] itself rejects [getUTXO] as not implemented: its
    [getUTXOs] then maps every address to the empty list. *)
Example getUTXOs_not_implemented :
  getUTXOs (fun _ => @defaultGetUTXO nat) ["bc1a"; "bc1b"]
    = resolve (mkDict (<["bc1a" := []]> (<["bc1b" := []]> ∅)) None).
Proof. vm_compute. reflexivity. Qed.

(** What the console has received for the failed item of a batch. *)
Example batchCall2SingleCallLogged_of_failure :
  batchCall2SingleCallLogged "getAddress" ["0xa"; "0xb"; "0xc"]
    (fun address : string =>
       if String.eqb address "0xb" then Settles 10 (Rejected NotImplementedError)
       else Settles 30 (Fulfilled (Some 7%nat)))
    = Settles 30 (Fulfilled
        ([Some 7%nat; None; Some 7%nat],
         [mkDebug "Error in Calling getAddress. " " input: " (Some "0xb")
                  ", reason" NotImplementedError])).
Proof. reflexivity. Qed.

(** ** [ProviderController.getClient] *)

Section ControllerFacts.
Variable chainSelector : string -> ChainInfo.
Variable require : string -> ChainModule.
Implicit Types (self : ProviderController) (accept : ClientFilter)
               (clients candidates : list BaseClient).

(** The guard, with the JavaScript operators evaluated: the [typeof]
    test is vacuous, and the entry is served when its expiry lies in the
    past. *)
Lemma cachedClient_unfold self chainCode accept now :
  cachedClient self chainCode accept now =
    match lastClientCache self !! chainCode with
    | Some (client, expiredAt) =>
        if (expiredAt <=? now)%Z && accept client then Some client else None
    | None => None
    end.
Proof.
  unfold cachedClient.
  destruct (lastClientCache self !! chainCode) as [[client expiredAt]|]; simpl; [|done].
  by destruct (expiredAt <=? now)%Z, (accept client).
Qed.

Lemma cachedClient_unexpired self chainCode accept now client expiredAt :
  lastClientCache self !! chainCode = Some (client, expiredAt) ->
  (now < expiredAt)%Z ->
  cachedClient self chainCode accept now = None.
Proof.
  intros E Hlt. rewrite cachedClient_unfold, E.
  by apply Z.leb_gt in Hlt as ->.
Qed.

Lemma cachedClient_expired self chainCode accept now client expiredAt :
  lastClientCache self !! chainCode = Some (client, expiredAt) ->
  (expiredAt <= now)%Z ->
  accept client = true ->
  cachedClient self chainCode accept now = Some client.
Proof.
  intros E Hle Hacc. rewrite cachedClient_unfold, E, Hacc.
  by apply Z.leb_le in Hle as ->.
Qed.

Lemma resolveClients_lastClientCache self chainCode clients self' :
  resolveClients chainSelector require self chainCode = Fulfilled (clients, self') ->
  lastClientCache self' = lastClientCache self.
Proof.
  unfold resolveClients.
  destruct (clientsCache self !! chainCode) as [[|c cs]|];
    try (destruct (requireChainImpl require _)); intros H; by inversion H.
Qed.

(** A readiness task fulfils only for a node that answered ready. *)
Lemma readinessCheck_fulfilled now candidate t winner :
  readinessCheck now candidate = Settles t (Fulfilled winner) ->
  winner = candidate /\
  exists info, getInfo candidate now = Settles t (Fulfilled info) /\ isReady info = true.
Proof.
  unfold readinessCheck.
  destruct (getInfo candidate now) as [ti [info|e]|]; [|done..].
  rewrite andThen_fulfilled. destruct (isReady info) eqn:Hr; cbn [negb].
  - rewrite later_resolve. intros H; inversion H; subst. eauto.
  - by rewrite later_reject.
Qed.

Lemma readinessRace_unfold accept clients now :
  readinessRace accept clients now =
    match createAnyPromise (map (readinessCheck now) (List.filter accept clients)) with
    | Settles t (Fulfilled winner) =>
        if (t <=? 10000)%N then Settles t (Fulfilled (Some winner))
        else Settles 10000 (Fulfilled None)
    | Settles t (Rejected e) =>
        if (t <=? 10000)%N then Settles t (Rejected e)
        else Settles 10000 (Fulfilled None)
    | Never => Settles 10000 (Fulfilled None)
    end.
Proof.
  unfold readinessRace, race, createDelayPromise. cbn [foldr].
  destruct (createAnyPromise _) as [t [winner|e]|]; [| |done].
  - change (Some <$> Settles t (Fulfilled winner))
      with (later t (resolve (Some winner))).
    rewrite later_resolve. unfold earlier. by destruct (t <=? 10000)%N.
  - change (Some <$> Settles t (@Rejected BaseClient e))
      with (Settles t (@Rejected (option BaseClient) e)).
    unfold earlier. by destruct (t <=? 10000)%N.
Qed.

(** The race always settles within the ten seconds of the delay. *)
Lemma readinessRace_bounded accept clients now :
  exists t o, readinessRace accept clients now = Settles t o /\ (t <= 10000)%N.
Proof.
  rewrite readinessRace_unfold.
  destruct (createAnyPromise _) as [t [winner|e]|];
    try destruct (t <=? 10000)%N eqn:Hle; try apply N.leb_le in Hle;
    eexists _, _; split; try reflexivity; lia.
Qed.

Lemma getClient_racing self chainCode filter now clients self' :
  cachedClient self chainCode (default (fun _ => true) filter) now = None ->
  resolveClients chainSelector require self chainCode = Fulfilled (clients, self') ->
  getClient chainSelector require self chainCode filter now =
    let candidates := List.filter (default (fun _ => true) filter) clients in
    match readinessRace (default (fun _ => true) filter) clients now with
    | Never => mkRun Never self' candidates []
    | Settles t (Fulfilled (Some client)) =>
        mkRun (Settles t (Fulfilled client))
              {| clientsCache := clientsCache self';
                 lastClientCache :=
                   <[chainCode := (client, (now + Z.of_N t + 300000)%Z)]>
                     (lastClientCache self') |}
              candidates []
    | Settles t (Fulfilled None) =>
        mkRun (Settles t (Rejected (PlainError "No available client"))) self' candidates []
    | Settles t (Rejected e) =>
        mkRun (Settles t (Rejected (PlainError "No available client"))) self' candidates [e]
    end.
Proof.
  intros Hmiss Hpool. unfold getClient. rewrite Hmiss, Hpool. cbn zeta.
  by destruct (readinessRace _ clients now) as [t [[client|]|e]|].
Qed.

(** Without a candidate that answers ready within ten seconds the race
    has no winner. *)
Lemma readinessRace_no_winner accept clients now :
  (forall t winner,
     createAnyPromise (map (readinessCheck now) (List.filter accept clients))
       = Settles t (Fulfilled winner) -> (10000 < t)%N) ->
  exists t, (t <= 10000)%N /\
    (readinessRace accept clients now = Settles t (Fulfilled None) \/
     exists e, readinessRace accept clients now = Settles t (Rejected e)).
Proof.
  intros Hlate. rewrite readinessRace_unfold.
  destruct (createAnyPromise _) as [t [winner|e]|].
  - specialize (Hlate t winner eq_refl). apply N.leb_gt in Hlate as ->.
    exists 10000%N. split; [lia | by left].
  - destruct (t <=? 10000)%N eqn:Hle.
    + apply N.leb_le in Hle. exists t. split; [done | right; by eexists].
    + exists 10000%N. split; [lia | by left].
  - exists 10000%N. split; [lia | by left].
Qed.

Lemma no_winner_of_conditions candidates now :
  allDisqualified candidates now \/ allFailed candidates now \/ delayFirst candidates now ->
  forall t winner,
    createAnyPromise (map (readinessCheck now) candidates) = Settles t (Fulfilled winner) ->
    (10000 < t)%N.
Proof.
  intros Hcond t winner Hany.
  destruct Hcond as [Hall|[Hall|Hdelay]].
  - exfalso. apply createAnyPromise_fulfilled, list_elem_of_fmap in Hany as (c & Hc & Hin).
    symmetry in Hc. apply readinessCheck_fulfilled in Hc as (_ & info & Hinfo & Hready).
    unfold allDisqualified in Hall. rewrite Forall_forall in Hall.
    destruct (Hall c Hin) as (t' & info' & Hinfo' & Hnot). congruence.
  - exfalso. apply createAnyPromise_fulfilled, list_elem_of_fmap in Hany as (c & Hc & Hin).
    symmetry in Hc. apply readinessCheck_fulfilled in Hc as (_ & info & Hinfo & Hready).
    unfold allFailed in Hall. rewrite Forall_forall in Hall.
    destruct (Hall c Hin) as (t' & e & Hinfo'). congruence.
  - unfold delayFirst in Hdelay. by rewrite Hany in Hdelay.
Qed.

(** [getClient] never stays pending: it settles at once from the cache or
    on a missing implementation, and within ten seconds otherwise. *)
Lemma getClient_settles self chainCode filter now :
  exists t o, settlement (getClient chainSelector require self chainCode filter now)
              = Settles t o /\ (t <= 10000)%N.
Proof.
  destruct (cachedClient self chainCode (default (fun _ => true) filter) now)
    as [client|] eqn:Hhit.
  { unfold getClient. rewrite Hhit. eexists _, _. split; [reflexivity | lia]. }
  destruct (resolveClients chainSelector require self chainCode)
    as [[clients self']|e] eqn:Hpool.
  - rewrite (getClient_racing _ _ _ _ clients self') by done. cbn zeta.
    destruct (readinessRace_bounded (default (fun _ => true) filter) clients now)
      as (t & o & -> & Hle).
    destruct o as [[client|]|e]; eexists _, _; split; try reflexivity; done.
  - unfold getClient. rewrite Hhit, Hpool. eexists _, _. split; [reflexivity | lia].
Qed.

(** A call answered from the cache touches neither the nodes nor the
    controller. *)
Lemma getClient_from_cache self chainCode filter now client :
  cachedClient self chainCode (default (fun _ => true) filter) now = Some client ->
  getClient chainSelector require self chainCode filter now
    = mkRun (resolve client) self [] [].
Proof. intros Hhit. unfold getClient. by rewrite Hhit. Qed.

End ControllerFacts.

(** C1 (a defect of the code).  The claim asks that an unexpired,
    filter-passing cached entry be returned with no readiness check.  The
    guard of [getClient] compares the other way round
    ([expiredAt <= Date.now()]), so with such an entry the call runs the
    readiness race over the whole pool, the cached client included. *)
Theorem getClient_unexpired_entry_rechecks
    (chainSelector : string -> ChainInfo) (require : string -> ChainModule)
    (self self' : ProviderController) (chainCode : string) (filter : option ClientFilter)
    (now expiredAt : Z) (client : BaseClient) (clients : list BaseClient) :
  lastClientCache self !! chainCode = Some (client, expiredAt) ->
  (now < expiredAt)%Z ->
  default (fun _ => true) filter client = true ->
  resolveClients chainSelector require self chainCode = Fulfilled (clients, self') ->
  In client clients ->
  readinessChecks (getClient chainSelector require self chainCode filter now)
    = List.filter (default (fun _ => true) filter) clients /\
  In client (readinessChecks (getClient chainSelector require self chainCode filter now)).
Proof.
  intros Hentry Hfresh Haccept Hpool Hin.
  assert (readinessChecks (getClient chainSelector require self chainCode filter now)
          = List.filter (default (fun _ => true) filter) clients) as E.
  { rewrite (getClient_racing _ _ _ _ _ _ clients self');
      [| by eapply cachedClient_unexpired | done].
    cbn zeta. by destruct (readinessRace _ clients now) as [t [[c|]|e]|]. }
  split; [done|]. rewrite E. apply filter_In. by split.
Qed.

Lemma getClient_unexpired_entry_rechecks_witness :
  readinessChecks
    (getClient Fixtures.chainSelector Fixtures.require Fixtures.warm "eth" None 1000)
    = List.filter (default (fun _ => true) None) [Fixtures.ethA; Fixtures.ethB] /\
  In Fixtures.ethB
     (readinessChecks
        (getClient Fixtures.chainSelector Fixtures.require Fixtures.warm "eth" None 1000)).
Proof.
  apply (getClient_unexpired_entry_rechecks
           Fixtures.chainSelector Fixtures.require Fixtures.warm Fixtures.warm
           "eth" None 1000 300050 Fixtures.ethB [Fixtures.ethA; Fixtures.ethB]).
  - reflexivity.
  - reflexivity.
  - reflexivity.
  - reflexivity.
  - right; left; reflexivity.
Defined.

(** The run behind the witness, evaluated: the first call at instant 0
    leaves the controller [warm]; a second call one second later, well
    within the five minutes, asks both nodes again. *)
Example getClient_within_ttl :
  controller (getClient Fixtures.chainSelector Fixtures.require Fixtures.fresh "eth" None 0)
    = Fixtures.warm /\
  readinessChecks
    (getClient Fixtures.chainSelector Fixtures.require Fixtures.warm "eth" None 1000)
    = [Fixtures.ethA; Fixtures.ethB] /\
  settlement
    (getClient Fixtures.chainSelector Fixtures.require Fixtures.warm "eth" None 1000)
    = Settles 50 (Fulfilled Fixtures.ethB).
Proof. repeat split; vm_compute; reflexivity. Qed.

(** Once the entry has expired it is served without any check. *)
Example getClient_after_ttl :
  getClient Fixtures.chainSelector Fixtures.require Fixtures.warm "eth" None 400000
    = mkRun (resolve Fixtures.ethB) Fixtures.warm [] [].
Proof. reflexivity. Qed.

(** C2.  When the readiness race has no winner (every candidate answers
    [isReady: false], or every [getInfo] fails, or the ten-second delay
    settles first), [getClient] rejects with "No available client" within
    the ten seconds; every candidate was asked exactly once, and nothing
    but the pool was stored. *)
Theorem getClient_no_available_client
    (chainSelector : string -> ChainInfo) (require : string -> ChainModule)
    (self self' : ProviderController) (chainCode : string) (filter : option ClientFilter)
    (now : Z) (clients : list BaseClient) :
  cachedClient self chainCode (default (fun _ => true) filter) now = None ->
  resolveClients chainSelector require self chainCode = Fulfilled (clients, self') ->
  allDisqualified (List.filter (default (fun _ => true) filter) clients) now \/
  allFailed (List.filter (default (fun _ => true) filter) clients) now \/
  delayFirst (List.filter (default (fun _ => true) filter) clients) now ->
  (exists t, (t <= 10000)%N /\
     settlement (getClient chainSelector require self chainCode filter now)
       = Settles t (Rejected (PlainError "No available client"))) /\
  readinessChecks (getClient chainSelector require self chainCode filter now)
    = List.filter (default (fun _ => true) filter) clients /\
  controller (getClient chainSelector require self chainCode filter now) = self'.
Proof.
  intros Hmiss Hpool Hcond.
  rewrite (getClient_racing _ _ _ _ _ _ clients self') by done. cbn zeta.
  destruct (readinessRace_no_winner (default (fun _ => true) filter) clients now)
    as (t & Hle & [E|[e E]]).
  { by apply no_winner_of_conditions. }
  - rewrite E. simpl. eauto.
  - rewrite E. simpl. eauto.
Qed.

Lemma getClient_no_available_client_witness :
  (exists t, (t <= 10000)%N /\
     settlement (getClient Fixtures.chainSelector Fixtures.require Fixtures.fresh "stc" None 0)
       = Settles t (Rejected (PlainError "No available client"))) /\
  readinessChecks (getClient Fixtures.chainSelector Fixtures.require Fixtures.fresh "stc" None 0)
    = List.filter (default (fun _ => true) None) Fixtures.stcPool /\
  controller (getClient Fixtures.chainSelector Fixtures.require Fixtures.fresh "stc" None 0)
    = mkController (<["stc" := Fixtures.stcPool]> ∅) ∅.
Proof.
  apply (getClient_no_available_client
           Fixtures.chainSelector Fixtures.require Fixtures.fresh
           (mkController (<["stc" := Fixtures.stcPool]> ∅) ∅) "stc" None 0 Fixtures.stcPool).
  - reflexivity.
  - reflexivity.
  - left. repeat constructor; eexists _, _; split; reflexivity.
Defined.

(** The three ways of having no winner, evaluated. *)
Example getClient_all_disqualified :
  settlement (getClient Fixtures.chainSelector Fixtures.require Fixtures.fresh "stc" None 0)
    = Settles 20 (Rejected (PlainError "No available client")).
Proof. reflexivity. Qed.

Example getClient_all_failed :
  settlement (getClient Fixtures.chainSelector Fixtures.require Fixtures.fresh "sol" None 0)
    = Settles 5 (Rejected (PlainError "No available client")).
Proof. reflexivity. Qed.

Example getClient_timed_out :
  settlement (getClient Fixtures.chainSelector Fixtures.require Fixtures.fresh "near" None 0)
    = Settles 10000 (Rejected (PlainError "No available client")).
Proof. reflexivity. Qed.

(** C8.  A call of [getClient] that resolves a client through the
    readiness race stores exactly the pair of that client and the current
    time plus 300000 ms under the chain code: whatever was cached for the
    chain code before is replaced as a whole, and the entries of other
    chain codes are left as they were. *)
Theorem getClient_stores_winner
    (chainSelector : string -> ChainInfo) (require : string -> ChainModule)
    (self : ProviderController) (chainCode : string) (filter : option ClientFilter)
    (now : Z) (t : N) (client : BaseClient) :
  cachedClient self chainCode (default (fun _ => true) filter) now = None ->
  settlement (getClient chainSelector require self chainCode filter now)
    = Settles t (Fulfilled client) ->
  lastClientCache (controller (getClient chainSelector require self chainCode filter now))
    = <[chainCode := (client, (now + Z.of_N t + 300000)%Z)]> (lastClientCache self) /\
  lastClientCache (controller (getClient chainSelector require self chainCode filter now))
    !! chainCode = Some (client, (now + Z.of_N t + 300000)%Z) /\
  (forall other, other <> chainCode ->
     lastClientCache (controller (getClient chainSelector require self chainCode filter now))
       !! other = lastClientCache self !! other).
Proof.
  intros Hmiss Hwin.
  assert (lastClientCache (controller (getClient chainSelector require self chainCode filter now))
          = <[chainCode := (client, (now + Z.of_N t + 300000)%Z)]> (lastClientCache self)) as E.
  { destruct (resolveClients chainSelector require self chainCode) as [[clients self']|e] eqn:Hpool.
    - pose proof (resolveClients_lastClientCache _ _ _ _ _ _ Hpool) as Hsame.
      rewrite (getClient_racing _ _ _ _ _ _ clients self') in * by done. cbn zeta in *.
      destruct (readinessRace _ clients now) as [t' [[c|]|e]|]; simpl in *; try done.
      inversion Hwin; subst. by rewrite Hsame.
    - unfold getClient in Hwin. rewrite Hmiss, Hpool in Hwin. done. }
  rewrite E. split; [done|]. split.
  - apply lookup_insert_eq.
  - intros other Hne. by apply lookup_insert_ne.
Qed.

Lemma getClient_stores_winner_witness :
  lastClientCache
    (controller (getClient Fixtures.chainSelector Fixtures.require Fixtures.warm "eth" None 1000))
    = <["eth" := (Fixtures.ethB, (1000 + Z.of_N 50 + 300000)%Z)]>
        (lastClientCache Fixtures.warm) /\
  lastClientCache
    (controller (getClient Fixtures.chainSelector Fixtures.require Fixtures.warm "eth" None 1000))
    !! "eth" = Some (Fixtures.ethB, (1000 + Z.of_N 50 + 300000)%Z) /\
  (forall other, other <> "eth" ->
     lastClientCache
       (controller (getClient Fixtures.chainSelector Fixtures.require Fixtures.warm "eth" None 1000))
       !! other = lastClientCache Fixtures.warm !! other).
Proof.
  apply (getClient_stores_winner
           Fixtures.chainSelector Fixtures.require Fixtures.warm "eth" None 1000 50 Fixtures.ethB).
  - reflexivity.
  - reflexivity.
Defined.

(** ** The JSON-RPC engine *)

Section EngineFacts.
Variable fetch : HttpRequest -> Promise HttpResponse.
Variable self : JsonRPCRequest.

Lemma call_delivered method params perCall t response :
  post fetch self (callPayload method params) perCall = Settles t (Fulfilled response) ->
  call fetch self method params perCall = later t (parseRPCResponse response).
Proof. intros H. unfold call. by rewrite H. Qed.


(** A failed transport rejects the call untouched. *)
Lemma call_transport_failure method params perCall t e :
  post fetch self (callPayload method params) perCall = Settles t (Rejected e) ->
  call fetch self method params perCall = Settles t (Rejected e).
Proof. intros H. unfold call. by rewrite H. Qed.

End EngineFacts.




(** The cases of the test-suite, evaluated. *)
Example batchCall_as_expected :
  batchCall (fun _ => Fixtures.okResponse (JArray [Fixtures.pong1; Fixtures.pong2]))
            Fixtures.rpc Fixtures.twoPings (<["H2" := "2-2"]> (<["H3" := "3"]> ∅))
    = resolve [JObject [("pong1", JString "success")];
               JObject [("pong2", JString "success")]].
Proof. reflexivity. Qed.

Example batchCall_non_array_response :
  batchCall (fun _ => Fixtures.okResponse Fixtures.pong1) Fixtures.rpc Fixtures.twoPings ∅
    = reject (ResponseError "Invalid JSON Batch RPC response, response should be an array").
Proof. reflexivity. Qed.

Example batchCall_insufficient_responses :
  batchCall (fun _ => Fixtures.okResponse (JArray [Fixtures.pong1]))
            Fixtures.rpc Fixtures.twoPings ∅
    = reject (ResponseError
        "Invalid JSON Batch RPC response, batch with 2 calls, but got 1 responses").
Proof. reflexivity. Qed.

Example batchCall_http_failure :
  batchCall (fun _ => resolve (mkResponse 404 (JObject []))) Fixtures.rpc Fixtures.twoPings ∅
    = reject (ResponseError "Wrong response<404>").
Proof. reflexivity. Qed.

(** C5.  A response object with an [error] field rejects the call with
    the JSON-RPC error, which carries the remote error object (its code
    and message), whether or not a [result] field is present as well. *)
Theorem call_error_takes_priority
    (fetch : HttpRequest -> Promise HttpResponse) (self : JsonRPCRequest)
    (method : string) (params : JsVal) (perCall : gmap string string)
    (t : N) (fields : list (string * JsVal)) (remote : JsVal) :
  post fetch self (callPayload method params) perCall = Settles t (Fulfilled (JObject fields)) ->
  assoc "error" fields = Some remote ->
  call fetch self method params perCall
    = Settles t (Rejected (JsonPRCResponseError "Error JSON PRC response" remote)).
Proof.
  intros Hpost Herr. rewrite (call_delivered _ _ _ _ _ _ _ Hpost).
  unfold parseRPCResponse. cbn [get]. rewrite Herr. apply later_reject.
Qed.

Lemma call_error_takes_priority_witness :
  call (fun _ => Fixtures.okResponse Fixtures.bothErrorAndResult)
       Fixtures.rpc "ping" (JArray []) ∅
    = Settles 0 (Rejected (JsonPRCResponseError "Error JSON PRC response"
                    (JObject [("errorCode", JNumber 10001);
                              ("errorMessage", JString "Internal Error")]))).
Proof.
  apply (call_error_takes_priority
           (fun _ => Fixtures.okResponse Fixtures.bothErrorAndResult)
           Fixtures.rpc "ping" (JArray []) ∅ 0
           [("jsonrpc", JString "2.0");
            ("result", JObject [("pong", JString "success")]);
            ("error", JObject [("errorCode", JNumber 10001);
                               ("errorMessage", JString "Internal Error")])]).
  - reflexivity.
  - reflexivity.
Defined.

(** C6.  For a response object without an [error] field: an absent
    [result] key rejects with "result not found", while a [result] key
    bound to [null] resolves to [null] (and any other bound value to that
    value). *)
Theorem call_result_extraction
    (fetch : HttpRequest -> Promise HttpResponse) (self : JsonRPCRequest)
    (method : string) (params : JsVal) (perCall : gmap string string)
    (t : N) (fields : list (string * JsVal)) :
  post fetch self (callPayload method params) perCall = Settles t (Fulfilled (JObject fields)) ->
  assoc "error" fields = None ->
  (assoc "result" fields = None ->
     call fetch self method params perCall
       = Settles t (Rejected (ResponseError "Invalid JSON RPC response, result not found"))) /\
  (assoc "result" fields = Some JNull ->
     call fetch self method params perCall = Settles t (Fulfilled JNull)) /\
  (forall result, assoc "result" fields = Some result ->
     call fetch self method params perCall = Settles t (Fulfilled result)).
Proof.
  intros Hpost Herr. rewrite (call_delivered _ _ _ _ _ _ _ Hpost).
  unfold parseRPCResponse. cbn [get]. rewrite Herr.
  split; [|split].
  - intros ->. apply later_reject.
  - intros ->. apply later_resolve.
  - intros result ->. apply later_resolve.
Qed.

Lemma call_result_extraction_witness :
  let fetch := fun _ : HttpRequest =>
    Fixtures.okResponse (JObject [("jsonrpc", JString "2.0"); ("result", JNull)]) in
  (assoc "result" [("jsonrpc", JString "2.0"); ("result", JNull)] = None ->
     call fetch Fixtures.rpc "ping" (JArray []) ∅
       = Settles 0 (Rejected (ResponseError "Invalid JSON RPC response, result not found"))) /\
  (assoc "result" [("jsonrpc", JString "2.0"); ("result", JNull)] = Some JNull ->
     call fetch Fixtures.rpc "ping" (JArray []) ∅ = Settles 0 (Fulfilled JNull)) /\
  (forall result,
     assoc "result" [("jsonrpc", JString "2.0"); ("result", JNull)] = Some result ->
     call fetch Fixtures.rpc "ping" (JArray []) ∅ = Settles 0 (Fulfilled result)).
Proof.
  intros fetch.
  apply (call_result_extraction fetch Fixtures.rpc "ping" (JArray []) ∅ 0
           [("jsonrpc", JString "2.0"); ("result", JNull)]).
  - reflexivity.
  - reflexivity.
Defined.

Example call_result_not_found :
  call (fun _ => Fixtures.okResponse (JObject [("jsonrpc", JString "2.0")]))
       Fixtures.rpc "ping" (JArray []) ∅
    = reject (ResponseError "Invalid JSON RPC response, result not found").
Proof. reflexivity. Qed.

Example call_null_result :
  call (fun _ => Fixtures.okResponse (JObject [("jsonrpc", JString "2.0"); ("result", JNull)]))
       Fixtures.rpc "ping" (JArray []) ∅
    = resolve JNull.
Proof. reflexivity. Qed.

(** C7.  The envelope of a single call carries id 0; the envelopes of a
    batch of N calls carry the ids 0..N-1 in request order, the envelope
    at position [i] being that of the [i]-th call.  The ids are computed
    from the position alone: no counter is kept between calls. *)
Theorem request_ids (self : JsonRPCRequest) (perCall : gmap string string) :
  (forall method params,
     envelopeId (body (request self (callPayload method params) perCall))
       = Some (JNumber 0)) /\
  (forall calls,
     body (request self (batchPayload calls) perCall) = JArray (batchEnvelopes calls) /\
     map envelopeId (batchEnvelopes calls)
       = map (fun i => Some (JNumber (Z.of_nat i))) (seq 0 (length calls)) /\
     forall i c, calls !! i = Some c ->
       batchEnvelopes calls !! i = Some (normalizePayload c.1 c.2 i)).
Proof.
  split; [reflexivity|]. intros calls. split; [reflexivity|]. split.
  - apply list_eq. intros i. unfold batchEnvelopes.
    rewrite !list_lookup_fmap, list_lookup_imap.
    destruct (calls !! i) as [c|] eqn:Hc; simpl.
    + rewrite lookup_seq_lt by (by eapply lookup_lt_Some). reflexivity.
    + rewrite lookup_seq_ge by (by apply lookup_ge_None). reflexivity.
  - intros i c Hc. unfold batchEnvelopes. by rewrite list_lookup_imap, Hc.
Qed.

Example call_as_expected :
  request Fixtures.rpc (callPayload "ping" (JObject [("v1", JNumber 1001); ("v2", JString "777")]))
          (<["H2" := "2-2"]> (<["H3" := "3"]> ∅))
    = mkRequest "https://mytest.com/rpc" "POST"
        (<["User-Agent" := "blockchain-libs"]>
           (<["Content-Type" := "application/json"]>
              (<["H1" := "1"]> (<["H2" := "2-2"]> (<["H3" := "3"]> ∅)))))
        (JObject [("jsonrpc", JString "2.0"); ("id", JNumber 0); ("method", JString "ping");
                  ("params", JObject [("v1", JNumber 1001); ("v2", JString "777")])]).
Proof. vm_compute. reflexivity. Qed.

Example batch_envelopes_as_expected :
  batchPayload Fixtures.twoPings
    = JArray [JObject [("jsonrpc", JString "2.0"); ("id", JNumber 0);
                       ("method", JString "ping1"); ("params", JObject [("v1", JNumber 1001)])];
              JObject [("jsonrpc", JString "2.0"); ("id", JNumber 1);
                       ("method", JString "ping2"); ("params", JObject [("v2", JString "777")])]].
Proof. reflexivity. Qed.

(** ** [StcClient.broadcastTransaction] *)

(** C9.  Whatever value the RPC call resolves with, the broadcast
    resolves, at the same instant, with a boolean that is [true] exactly
    when that value is a string of length 66. *)
Theorem broadcastTransaction_verdict
    (rpcCall : string -> JsVal -> Promise JsVal) (rawTx : string) (t : N) (txid : JsVal) :
  rpcCall "txpool.submit_hex_transaction" (JArray [JString rawTx])
    = Settles t (Fulfilled txid) ->
  exists accepted,
    broadcastTransaction rpcCall rawTx = Settles t (Fulfilled accepted) /\
    (accepted = true <-> exists s, txid = JString s /\ String.length s = 66%nat).
Proof.
  intros Hcall. unfold broadcastTransaction. rewrite Hcall, andThen_fulfilled, later_resolve.
  eexists. split; [reflexivity|].
  destruct txid as [| |b|n|s|items|fields]; simpl;
    try (split; [done | by intros (s' & Hs & _)]).
  rewrite Nat.eqb_eq. split.
  - intros Hlen. by exists s.
  - intros (s' & Hs & Hlen). by inversion Hs; subst.
Qed.

Lemma broadcastTransaction_verdict_witness :
  exists accepted,
    broadcastTransaction (fun _ _ => Settles 40 (Fulfilled (JString Fixtures.txid66))) "0xdead"
      = Settles 40 (Fulfilled accepted) /\
    (accepted = true <->
     exists s, JString Fixtures.txid66 = JString s /\ String.length s = 66%nat).
Proof.
  apply (broadcastTransaction_verdict
           (fun _ _ => Settles 40 (Fulfilled (JString Fixtures.txid66))) "0xdead" 40
           (JString Fixtures.txid66)).
  reflexivity.
Defined.

Example broadcastTransaction_accepts_txid :
  broadcastTransaction (fun _ _ => resolve (JString Fixtures.txid66)) "0xdead" = resolve true.
Proof. reflexivity. Qed.

Example broadcastTransaction_refuses_others :
  broadcastTransaction (fun _ _ => resolve JNull) "0xdead" = resolve false /\
  broadcastTransaction (fun _ _ => resolve (JString "0x10a1")) "0xdead" = resolve false /\
  broadcastTransaction (fun _ _ => resolve (JNumber 66)) "0xdead" = resolve false.
Proof. repeat split; reflexivity. Qed.

(** A rejected RPC call rejects the broadcast with the same reason. *)
Lemma broadcastTransaction_rejected
    (rpcCall : string -> JsVal -> Promise JsVal) (rawTx : string) (t : N) (e : Error) :
  rpcCall "txpool.submit_hex_transaction" (JArray [JString rawTx]) = Settles t (Rejected e) ->
  broadcastTransaction rpcCall rawTx = Settles t (Rejected e).
Proof. intros H. unfold broadcastTransaction. by rewrite H. Qed.

(* ===================================================================== *)
(** * Further properties of the code                                      *)
(* ===================================================================== *)

(** ** Races *)

Section RaceFacts.
Context {A : Type}.
Implicit Types (p q : Promise A) (ps : list (Promise A)).

(** Nobody in a race settles before its winner. *)
Lemma race_earliest ps t o :
  race ps = Settles t o -> forall t' o', In (Settles t' o') ps -> (t <= t')%N.
Proof.
  revert t o. induction ps as [|p ps IH]; intros t o Hrace t' o' Hin; [done|].
  simpl in Hrace. unfold earlier in Hrace.
  destruct p as [tp op|].
  - destruct (race ps) as [tq oq|] eqn:E.
    + destruct (tp <=? tq)%N eqn:Hle; inversion Hrace; subst; clear Hrace.
      * apply N.leb_le in Hle. destruct Hin as [Hin|Hin].
        -- inversion Hin; subst. lia.
        -- specialize (IH _ _ eq_refl _ _ Hin). lia.
      * apply N.leb_gt in Hle. destruct Hin as [Hin|Hin].
        -- inversion Hin; subst. lia.
        -- by apply (IH _ _ eq_refl _ _ Hin).
    + inversion Hrace; subst; clear Hrace. destruct Hin as [Hin|Hin].
      * inversion Hin; subst. lia.
      * apply race_never in E. rewrite Forall_forall in E.
        apply list_elem_of_In, E in Hin. done.
  - destruct Hin as [Hin|Hin]; [done|]. by eapply IH.
Qed.

Lemma race_settles ps t' o' :
  In (Settles t' o') ps -> exists t o, race ps = Settles t o.
Proof.
  intros Hin. destruct (race ps) as [t o|] eqn:E; [by eexists _, _|].
  apply race_never in E. rewrite Forall_forall in E.
  apply list_elem_of_In, E in Hin. done.
Qed.

Lemma createAnyPromise_earliest ps t v :
  createAnyPromise ps = Settles t (Fulfilled v) ->
  forall t' v', In (Settles t' (Fulfilled v')) ps -> (t <= t')%N.
Proof.
  unfold createAnyPromise.
  destruct (race (List.filter fulfils ps)) as [tr or|] eqn:E.
  - intros H; inversion H; subst. intros t' v' Hin.
    eapply race_earliest; [exact E|]. apply filter_In. split; [exact Hin | done].
  - destruct (settleAll ps) as [[ts os]|]; done.
Qed.

Lemma createAnyPromise_complete ps t' v' :
  In (Settles t' (Fulfilled v')) ps ->
  exists t v, createAnyPromise ps = Settles t (Fulfilled v) /\ (t <= t')%N.
Proof.
  intros Hin.
  assert (In (Settles t' (Fulfilled v')) (List.filter fulfils ps)) as Hfil
    by (apply filter_In; by split).
  destruct (race_settles _ _ _ Hfil) as (t & o & E).
  pose proof (race_earliest _ _ _ E _ _ Hfil) as Hle.
  pose proof (race_elem _ _ _ E) as Hmem.
  apply list_elem_of_In, filter_In in Hmem as [_ Hful].
  destruct o as [v|e]; [|done].
  exists t, v. unfold createAnyPromise. by rewrite E.
Qed.

End RaceFacts.

(** ** More on [ProviderController.getClient] *)

Section ControllerMore.
Variable chainSelector : string -> ChainInfo.
Variable require : string -> ChainModule.
Implicit Types (self : ProviderController) (accept : ClientFilter)
               (clients candidates : list BaseClient).

Lemma readinessCheck_ready now candidate t info :
  getInfo candidate now = Settles t (Fulfilled info) -> isReady info = true ->
  readinessCheck now candidate = Settles t (Fulfilled candidate).
Proof.
  intros Hinfo Hready. unfold readinessCheck.
  rewrite Hinfo, andThen_fulfilled, Hready. cbn [negb]. apply later_resolve.
Qed.

Lemma getClient_fulfilled_racing self chainCode filter now clients self' t client :
  cachedClient self chainCode (default (fun _ => true) filter) now = None ->
  resolveClients chainSelector require self chainCode = Fulfilled (clients, self') ->
  settlement (getClient chainSelector require self chainCode filter now)
    = Settles t (Fulfilled client) ->
  createAnyPromise
    (map (readinessCheck now) (List.filter (default (fun _ => true) filter) clients))
    = Settles t (Fulfilled client) /\ (t <= 10000)%N.
Proof.
  intros Hmiss Hpool. rewrite (getClient_racing _ _ _ _ _ _ clients self') by done.
  cbn zeta. rewrite readinessRace_unfold.
  destruct (createAnyPromise _) as [ta [w|e]|];
    [destruct (ta <=? 10000)%N eqn:Hle | destruct (ta <=? 10000)%N eqn:Hle |];
    simpl; intros H; inversion H; subst.
  split; [done | by apply N.leb_le].
Qed.

End ControllerMore.

(** X1.  [getClient] never stays pending: whatever the nodes do, it
    settles within ten seconds of the call, and a client it resolves is
    always one the caller's filter accepts. *)
Theorem getClient_bounded
    (chainSelector : string -> ChainInfo) (require : string -> ChainModule)
    (self : ProviderController) (chainCode : string) (filter : option ClientFilter) (now : Z) :
  exists t o,
    settlement (getClient chainSelector require self chainCode filter now) = Settles t o /\
    (t <= 10000)%N /\
    (forall client, o = Fulfilled client -> default (fun _ => true) filter client = true).
Proof.
  destruct (cachedClient self chainCode (default (fun _ => true) filter) now)
    as [cached|] eqn:Hhit.
  { rewrite (getClient_from_cache _ _ _ _ _ _ cached Hhit). simpl.
    eexists _, _. split; [reflexivity|]. split; [lia|].
    intros client H; inversion H; subst.
    rewrite cachedClient_unfold in Hhit.
    destruct (lastClientCache self !! chainCode) as [[c e]|]; [|done].
    destruct (e <=? now)%Z; [|done]. simpl in Hhit.
    destruct (default (fun _ => true) filter c) eqn:Hacc; [|done]. by inversion Hhit; subst. }
  destruct (resolveClients chainSelector require self chainCode)
    as [[clients self']|e] eqn:Hpool.
  - destruct (getClient_settles chainSelector require self chainCode filter now)
      as (t & o & Hset & Hle).
    exists t, o. split; [done|]. split; [done|].
    intros client ->.
    destruct (getClient_fulfilled_racing _ _ _ _ _ _ _ _ _ _ Hhit Hpool Hset) as [Hany _].
    apply createAnyPromise_fulfilled, list_elem_of_fmap in Hany as (c & Hc & Hin).
    symmetry in Hc. apply readinessCheck_fulfilled in Hc as [-> _].
    by apply list_elem_of_In, filter_In in Hin as [_ Hacc].
  - unfold getClient. rewrite Hhit, Hpool. simpl.
    eexists _, _. split; [reflexivity|]. split; [lia | done].
Qed.

(** X2.  A client that [getClient] resolves through the readiness race is
    a member of the pool that the filter accepts and whose node answered
    [isReady: true] at that very instant, within the ten seconds; and no
    other accepted member of the pool answered ready any earlier. *)
Theorem getClient_winner
    (chainSelector : string -> ChainInfo) (require : string -> ChainModule)
    (self self' : ProviderController) (chainCode : string) (filter : option ClientFilter)
    (now : Z) (clients : list BaseClient) (t : N) (client : BaseClient) :
  cachedClient self chainCode (default (fun _ => true) filter) now = None ->
  resolveClients chainSelector require self chainCode = Fulfilled (clients, self') ->
  settlement (getClient chainSelector require self chainCode filter now)
    = Settles t (Fulfilled client) ->
  In client clients /\
  default (fun _ => true) filter client = true /\
  (t <= 10000)%N /\
  (exists info, getInfo client now = Settles t (Fulfilled info) /\ isReady info = true) /\
  (forall rival t' info',
     In rival clients -> default (fun _ => true) filter rival = true ->
     getInfo rival now = Settles t' (Fulfilled info') -> isReady info' = true ->
     (t <= t')%N).
Proof.
  intros Hmiss Hpool Hwin.
  destruct (getClient_fulfilled_racing _ _ _ _ _ _ _ _ _ _ Hmiss Hpool Hwin) as [Hany Hle].
  pose proof (createAnyPromise_fulfilled _ _ _ Hany) as Hmem.
  apply list_elem_of_fmap in Hmem as (c & Hc & Hin). symmetry in Hc.
  destruct (readinessCheck_fulfilled _ _ _ _ Hc) as (-> & info & Hinfo & Hready).
  apply list_elem_of_In, filter_In in Hin as [Hin Hacc].
  repeat split; try done.
  - by exists info.
  - intros rival t' info' Hrin Hracc Hrinfo Hrready.
    eapply (createAnyPromise_earliest _ _ _ Hany t' rival).
    apply in_map_iff. exists rival. split.
    + by eapply readinessCheck_ready.
    + apply filter_In. by split.
Qed.

Lemma getClient_winner_witness :
  In Fixtures.ethB [Fixtures.ethA; Fixtures.ethB] /\
  default (fun _ => true) None Fixtures.ethB = true /\
  (50 <= 10000)%N /\
  (exists info, getInfo Fixtures.ethB 0 = Settles 50 (Fulfilled info) /\ isReady info = true) /\
  (forall rival t' info',
     In rival [Fixtures.ethA; Fixtures.ethB] -> default (fun _ => true) None rival = true ->
     getInfo rival 0 = Settles t' (Fulfilled info') -> isReady info' = true ->
     (50 <= t')%N).
Proof.
  apply (getClient_winner Fixtures.chainSelector Fixtures.require Fixtures.fresh
           (mkController (<["eth" := [Fixtures.ethA; Fixtures.ethB]]> ∅) ∅)
           "eth" None 0 [Fixtures.ethA; Fixtures.ethB] 50 Fixtures.ethB).
  - reflexivity.
  - reflexivity.
  - reflexivity.
Defined.

(** X3.  Conversely, as soon as one accepted member of the pool answers
    [isReady: true] within the ten seconds, [getClient] resolves, and no
    later than that member answered. *)
Theorem getClient_resolves_when_ready
    (chainSelector : string -> ChainInfo) (require : string -> ChainModule)
    (self self' : ProviderController) (chainCode : string) (filter : option ClientFilter)
    (now : Z) (clients : list BaseClient) (candidate : BaseClient) (t : N) (info : ClientInfo) :
  cachedClient self chainCode (default (fun _ => true) filter) now = None ->
  resolveClients chainSelector require self chainCode = Fulfilled (clients, self') ->
  In candidate clients ->
  default (fun _ => true) filter candidate = true ->
  getInfo candidate now = Settles t (Fulfilled info) ->
  isReady info = true ->
  (t <= 10000)%N ->
  exists t' winner,
    settlement (getClient chainSelector require self chainCode filter now)
      = Settles t' (Fulfilled winner) /\ (t' <= t)%N.
Proof.
  intros Hmiss Hpool Hin Hacc Hinfo Hready Hle.
  rewrite (getClient_racing _ _ _ _ _ _ clients self') by done. cbn zeta.
  rewrite readinessRace_unfold.
  destruct (createAnyPromise_complete
              (map (readinessCheck now) (List.filter (default (fun _ => true) filter) clients))
              t candidate) as (t' & winner & -> & Hle').
  { apply in_map_iff. exists candidate. split.
    - by eapply readinessCheck_ready.
    - apply filter_In. by split. }
  assert ((t' <=? 10000)%N = true) as -> by (apply N.leb_le; lia).
  by exists t', winner.
Qed.

Lemma getClient_resolves_when_ready_witness :
  exists t' winner,
    settlement (getClient Fixtures.chainSelector Fixtures.require Fixtures.fresh "eth" None 0)
      = Settles t' (Fulfilled winner) /\ (t' <= 50)%N.
Proof.
  apply (getClient_resolves_when_ready Fixtures.chainSelector Fixtures.require Fixtures.fresh
           (mkController (<["eth" := [Fixtures.ethA; Fixtures.ethB]]> ∅) ∅)
           "eth" None 0 [Fixtures.ethA; Fixtures.ethB] Fixtures.ethB 50
           (mkInfo 8621972 true)).
  - reflexivity.
  - reflexivity.
  - right; left; reflexivity.
  - reflexivity.
  - reflexivity.
  - reflexivity.
  - lia.
Defined.

Lemma omap_cons {A B} (f : A -> option B) (x : A) (l : list A) :
  omap f (x :: l) = match f x with Some y => y :: omap f l | None => omap f l end.
Proof. reflexivity. Qed.

Lemma omap_length_le {A B} (f : A -> option B) (l : list A) :
  (length (omap f l) <= length l)%nat.
Proof.
  induction l as [|x l IH]; [done|]. rewrite omap_cons.
  destruct (f x); simpl; lia.
Qed.

Section PoolFacts.
Variable chainSelector : string -> ChainInfo.
Variable require : string -> ChainModule.
Implicit Types (self : ProviderController) (clients : list BaseClient).

Lemma resolveClients_cached self chainCode client rest :
  clientsCache self !! chainCode = Some (client :: rest) ->
  resolveClients chainSelector require self chainCode = Fulfilled (client :: rest, self).
Proof. intros H. unfold resolveClients. by rewrite H. Qed.

Lemma resolveClients_stores self chainCode clients self' :
  resolveClients chainSelector require self chainCode = Fulfilled (clients, self') ->
  clientsCache self' !! chainCode = Some clients /\
  forall other, other <> chainCode ->
    clientsCache self' !! other = clientsCache self !! other.
Proof.
  unfold resolveClients.
  destruct (clientsCache self !! chainCode) as [[|c cs]|] eqn:E.
  - destruct (requireChainImpl require _) as [module|e]; intros H; inversion H; subst.
    simpl. split; [apply lookup_insert_eq|]. intros other Hne. by apply lookup_insert_ne.
  - intros H; inversion H; subst. by split.
  - destruct (requireChainImpl require _) as [module|e]; intros H; inversion H; subst.
    simpl. split; [apply lookup_insert_eq|]. intros other Hne. by apply lookup_insert_ne.
Qed.

Lemma getClient_controller_cases self chainCode filter now :
  controller (getClient chainSelector require self chainCode filter now) = self \/
  exists clients self',
    resolveClients chainSelector require self chainCode = Fulfilled (clients, self') /\
    clientsCache (controller (getClient chainSelector require self chainCode filter now))
      = clientsCache self' /\
    (lastClientCache (controller (getClient chainSelector require self chainCode filter now))
       = lastClientCache self \/
     exists entry,
       lastClientCache (controller (getClient chainSelector require self chainCode filter now))
         = <[chainCode := entry]> (lastClientCache self)).
Proof.
  destruct (cachedClient self chainCode (default (fun _ => true) filter) now)
    as [cached|] eqn:Hhit.
  { left. by rewrite (getClient_from_cache _ _ _ _ _ _ cached Hhit). }
  destruct (resolveClients chainSelector require self chainCode)
    as [[clients self']|e] eqn:Hpool.
  - right. exists clients, self'. split; [done|].
    pose proof (resolveClients_lastClientCache _ _ _ _ _ _ Hpool) as Hsame.
    rewrite (getClient_racing _ _ _ _ _ _ clients self') by done. cbn zeta.
    destruct (readinessRace _ clients now) as [t [[c|]|e]|]; simpl;
      (split; [done|]); rewrite ?Hsame; eauto.
  - left. unfold getClient. by rewrite Hhit, Hpool.
Qed.

End PoolFacts.

(** X4.  [getClient] for one chain code leaves the pool and the cached
    client of every other chain code as they were, however the call
    ends. *)
Theorem getClient_other_chains_untouched
    (chainSelector : string -> ChainInfo) (require : string -> ChainModule)
    (self : ProviderController) (chainCode other : string)
    (filter : option ClientFilter) (now : Z) :
  other <> chainCode ->
  clientsCache (controller (getClient chainSelector require self chainCode filter now))
    !! other = clientsCache self !! other /\
  lastClientCache (controller (getClient chainSelector require self chainCode filter now))
    !! other = lastClientCache self !! other.
Proof.
  intros Hne.
  destruct (getClient_controller_cases chainSelector require self chainCode filter now)
    as [->|(clients & self' & Hpool & -> & Hlast)]; [done|].
  destruct (resolveClients_stores _ _ _ _ _ _ Hpool) as [_ Hothers].
  split; [by apply Hothers|].
  destruct Hlast as [->|[entry ->]]; [done|]. by apply lookup_insert_ne.
Qed.

Lemma getClient_other_chains_untouched_witness :
  clientsCache (controller (getClient Fixtures.chainSelector Fixtures.require
                                      Fixtures.warm "stc" None 1000))
    !! "eth" = clientsCache Fixtures.warm !! "eth" /\
  lastClientCache (controller (getClient Fixtures.chainSelector Fixtures.require
                                         Fixtures.warm "stc" None 1000))
    !! "eth" = lastClientCache Fixtures.warm !! "eth".
Proof.
  apply (getClient_other_chains_untouched Fixtures.chainSelector Fixtures.require
           Fixtures.warm "stc" "eth" None 1000).
  discriminate.
Defined.

(** X5.  Once a non-empty pool is stored for a chain code, [getClient]
    uses it as it is: neither the chain selector nor the registry of
    implementations is consulted again, so the call does the same under
    any other configuration, and the pool stays in place. *)
Theorem getClient_reuses_pool
    (chainSelector chainSelector' : string -> ChainInfo)
    (require require' : string -> ChainModule)
    (self : ProviderController) (chainCode : string) (filter : option ClientFilter)
    (now : Z) (client : BaseClient) (rest : list BaseClient) :
  clientsCache self !! chainCode = Some (client :: rest) ->
  getClient chainSelector require self chainCode filter now
    = getClient chainSelector' require' self chainCode filter now /\
  clientsCache (controller (getClient chainSelector require self chainCode filter now))
    = clientsCache self.
Proof.
  intros Hpool.
  pose proof (resolveClients_cached chainSelector require _ _ _ _ Hpool) as H1.
  pose proof (resolveClients_cached chainSelector' require' _ _ _ _ Hpool) as H2.
  split.
  - unfold getClient. by rewrite H1, H2.
  - destruct (getClient_controller_cases chainSelector require self chainCode filter now)
      as [->|(clients & self' & Hres & -> & _)]; [done|].
    rewrite H1 in Hres. by inversion Hres.
Qed.

Lemma getClient_reuses_pool_witness :
  getClient Fixtures.chainSelector Fixtures.require Fixtures.warm "eth" None 1000
    = getClient (fun _ => mkChain "eth" "btc" [] JNull) (fun _ _ => None)
                Fixtures.warm "eth" None 1000 /\
  clientsCache (controller (getClient Fixtures.chainSelector Fixtures.require
                                      Fixtures.warm "eth" None 1000))
    = clientsCache Fixtures.warm.
Proof.
  apply (getClient_reuses_pool Fixtures.chainSelector (fun _ => mkChain "eth" "btc" [] JNull)
           Fixtures.require (fun _ _ => None) Fixtures.warm "eth" None 1000
           Fixtures.ethA [Fixtures.ethB]).
  reflexivity.
Defined.

(** X6.  When no pool (or an empty one) is stored and the implementation
    is registered, the pool is built from the configured clients in their
    order: one instance per configuration whose class the module exports,
    the others being skipped, each instance bound to the chain's info;
    the pool is stored under the chain code and the cached clients are
    not touched. *)
Theorem resolveClients_builds_pool
    (chainSelector : string -> ChainInfo) (require : string -> ChainModule)
    (self : ProviderController) (chainCode : string) (module : ChainModule) :
  (clientsCache self !! chainCode = None \/ clientsCache self !! chainCode = Some []) ->
  IMPLS require (impl (chainSelector chainCode)) = Some module ->
  exists clients self',
    resolveClients chainSelector require self chainCode = Fulfilled (clients, self') /\
    clients = omap (fun config =>
                      (fun clazz => setChainInfo (chainSelector chainCode) (clazz (args config)))
                        <$> module (name config))
                   (Controller.clients (chainSelector chainCode)) /\
    Forall (fun client => chainInfo client = Some (chainSelector chainCode)) clients /\
    (length clients <= length (Controller.clients (chainSelector chainCode)))%nat /\
    clientsCache self' = <[chainCode := clients]> (clientsCache self) /\
    lastClientCache self' = lastClientCache self.
Proof.
  intros Hempty Himpl.
  assert (forall configs : list ClientConfig,
            map (setChainInfo (chainSelector chainCode))
              (omap (fun entry : option ClientClass * ClientConfig =>
                       (fun clazz => clazz (args entry.2)) <$> entry.1)
                 (List.filter (fun entry : option ClientClass * ClientConfig =>
                                 bool_decide (is_Some entry.1))
                    (map (fun config => (module (name config), config)) configs)))
            = omap (fun config =>
                      (fun clazz => setChainInfo (chainSelector chainCode) (clazz (args config)))
                        <$> module (name config)) configs) as Hshape.
  { induction configs as [|config configs IH]; [done|].
    cbn [map List.filter fst snd].
    rewrite (omap_cons _ config configs).
    destruct (module (name config)) as [clazz|] eqn:Hm.
    - rewrite bool_decide_eq_true_2 by (by eexists).
      rewrite omap_cons. cbn [fst snd fmap option_fmap option_map map]. by rewrite IH.
    - rewrite bool_decide_eq_false_2 by (by intros [? ?]). exact IH. }
  eexists _, _. split.
  { unfold resolveClients, requireChainImpl. rewrite Himpl. cbn [checkIsDefined].
    by destruct Hempty as [->| ->]. }
  unfold instantiate. rewrite Hshape. split; [done|]. split; [|split; [|done]].
  - apply Forall_forall. intros client Hin.
    apply list_elem_of_omap in Hin as (config & _ & Hc).
    destruct (module (name config)); [|done]. by inversion Hc.
  - apply omap_length_le.
Qed.

Lemma resolveClients_builds_pool_witness :
  exists clients self',
    resolveClients Fixtures.chainSelector Fixtures.require Fixtures.fresh "eth"
      = Fulfilled (clients, self') /\
    clients = omap (fun config =>
                      (fun clazz => setChainInfo (Fixtures.chainSelector "eth")
                                                 (clazz (args config)))
                        <$> Fixtures.chainModule (name config))
                   (Controller.clients (Fixtures.chainSelector "eth")) /\
    Forall (fun client => chainInfo client = Some (Fixtures.chainSelector "eth")) clients /\
    (length clients <= length (Controller.clients (Fixtures.chainSelector "eth")))%nat /\
    clientsCache self' = <["eth" := clients]> (clientsCache Fixtures.fresh) /\
    lastClientCache self' = lastClientCache Fixtures.fresh.
Proof.
  apply (resolveClients_builds_pool Fixtures.chainSelector Fixtures.require Fixtures.fresh
           "eth" Fixtures.chainModule).
  - left. reflexivity.
  - reflexivity.
Defined.

(** X7.  When [getClient] answers from the cache, the client it returns
    is the one stored for the chain code and one the filter accepts; the
    promise is already resolved, no node is asked and the controller is
    left as it was. *)
Theorem getClient_answer_from_cache
    (chainSelector : string -> ChainInfo) (require : string -> ChainModule)
    (self : ProviderController) (chainCode : string) (filter : option ClientFilter)
    (now : Z) (client : BaseClient) :
  cachedClient self chainCode (default (fun _ => true) filter) now = Some client ->
  getClient chainSelector require self chainCode filter now
    = mkRun (resolve client) self [] [] /\
  (exists expiredAt, lastClientCache self !! chainCode = Some (client, expiredAt)) /\
  default (fun _ => true) filter client = true.
Proof.
  intros Hhit. split; [by apply getClient_from_cache|].
  rewrite cachedClient_unfold in Hhit.
  destruct (lastClientCache self !! chainCode) as [[c e]|]; [|done].
  destruct (e <=? now)%Z; [|done]. simpl in Hhit.
  destruct (default (fun _ => true) filter c) eqn:Hacc; [|done].
  inversion Hhit; subst. split; [by exists e | done].
Qed.

Lemma getClient_answer_from_cache_witness :
  getClient Fixtures.chainSelector Fixtures.require Fixtures.warm "eth" None 400000
    = mkRun (resolve Fixtures.ethB) Fixtures.warm [] [] /\
  (exists expiredAt, lastClientCache Fixtures.warm !! "eth" = Some (Fixtures.ethB, expiredAt)) /\
  default (fun _ => true) None Fixtures.ethB = true.
Proof.
  apply (getClient_answer_from_cache Fixtures.chainSelector Fixtures.require Fixtures.warm
           "eth" None 400000 Fixtures.ethB).
  reflexivity.
Defined.

(** X8.  The dispatch methods ([getInfo], [getAddresses], ...) forward
    the resolution unchanged.  Whenever the readiness race has no
    winner, that is whenever no member of the pool answers
    [isReady: true] within the ten seconds, be the members not ready,
    failing, slow, silent or any mix of these, the method rejects with
    "No available client" within the ten seconds, whatever the client
    method would have done. *)
Theorem forward_no_available_client
    {A : Type} (method : BaseClient -> Z -> Promise A)
    (chainSelector : string -> ChainInfo) (require : string -> ChainModule)
    (self self' : ProviderController) (chainCode : string) (now : Z)
    (clients : list BaseClient) :
  cachedClient self chainCode (fun _ => true) now = None ->
  resolveClients chainSelector require self chainCode = Fulfilled (clients, self') ->
  (forall candidate t info,
     In candidate clients ->
     getInfo candidate now = Settles t (Fulfilled info) -> isReady info = true ->
     (10000 < t)%N) ->
  exists t, (t <= 10000)%N /\
    Dispatch.forward chainSelector require method self chainCode now
      = Settles t (Rejected (PlainError "No available client")).
Proof.
  intros Hmiss Hpool Hnone. unfold Dispatch.forward.
  rewrite (getClient_racing _ _ _ _ None _ clients self') by done. cbn zeta.
  destruct (readinessRace_no_winner (fun _ => true) clients now)
    as (t & Hle & [E|[e E]]).
  { intros t winner Hany.
    apply createAnyPromise_fulfilled, list_elem_of_fmap in Hany as (c & Hc & Hin).
    symmetry in Hc. apply readinessCheck_fulfilled in Hc as (_ & info & Hinfo & Hready).
    apply list_elem_of_In, filter_In in Hin as [Hin _]. by apply (Hnone c t info). }
  - simpl. rewrite E. simpl. eauto.
  - simpl. rewrite E. simpl. eauto.
Qed.

Lemma forward_no_available_client_witness :
  let pool := map (setChainInfo (Fixtures.chainSelector "mix"))
                  [Fixtures.node "Syncing" Fixtures.syncing [JString "https://a"];
                   Fixtures.node "Down" Fixtures.down [JString "https://b"];
                   Fixtures.node "Slow" Fixtures.slow [JString "https://c"];
                   Fixtures.node "Silent" Never [JString "https://d"]] in
  exists t, (t <= 10000)%N /\
    Dispatch.getInfo Fixtures.chainSelector Fixtures.require
      (mkController (<["mix" := pool]> ∅) ∅) "mix" 0
      = Settles t (Rejected (PlainError "No available client")).
Proof.
  intros pool.
  apply (forward_no_available_client (fun client at_ => getInfo client at_)
           Fixtures.chainSelector Fixtures.require
           (mkController (<["mix" := pool]> ∅) ∅)
           (mkController (<["mix" := pool]> ∅) ∅)
           "mix" 0 pool).
  - reflexivity.
  - reflexivity.
  - intros candidate t info [<-|[<-|[<-|[<-|[]]]]] Hinfo Hready;
      simpl in Hinfo; inversion Hinfo; subst; simpl in Hready; first [discriminate Hready | lia].
Defined.

(** ** More on the fan-out adapter *)

Section AdapterMore.
Context {T R : Type}.
Implicit Types (inputs : list T) (handler : T -> Promise (option R)).

(** The adapter, in one equation: it waits for the slowest call and then
    fills the slots. *)
Lemma batchCall2SingleCall_unfold inputs handler :
  batchCall2SingleCall inputs handler =
    match settleAll (map handler inputs) with
    | Some (t, _) => Settles t (Fulfilled (map (fun x => slot (handler x)) inputs))
    | None => Never
    end.
Proof.
  unfold batchCall2SingleCall, allSettled.
  destruct (settleAll (map handler inputs)) as [[t os]|] eqn:E; [|done].
  rewrite andThen_fulfilled, assemble_same_length, later_resolve.
  - by rewrite (settleAll_slots _ _ _ E), map_map.
  - apply settleAll_length in E. by rewrite E, length_map.
Qed.

Lemma settleAll_instant (ps : list (Promise (option R))) :
  Forall (fun p => exists o, p = Settles 0 o) ps -> exists os, settleAll ps = Some (0%N, os).
Proof.
  induction 1 as [|p ps [o ->] _ [os IH]]; simpl; [by eexists|].
  rewrite IH. by eexists.
Qed.

End AdapterMore.

Lemma fmap_fulfilled {A B} (f : A -> B) t v :
  f <$> Settles t (Fulfilled v) = Settles t (Fulfilled (f v)).
Proof.
  change (f <$> Settles t (Fulfilled v)) with (later t (resolve (f v))).
  apply later_resolve.
Qed.

Lemma fmap_rejected {A B} (f : A -> B) t e :
  f <$> Settles t (@Rejected A e) = Settles t (Rejected e).
Proof. reflexivity. Qed.

Lemma fmap_never {A B} (f : A -> B) : f <$> (@Never A) = Never.
Proof. reflexivity. Qed.

(** X11.  A [SimpleClient] that does not override [getUTXO] answers
    [getUTXOs] at once with an object whose entries are the input
    addresses, each with the empty list; the address [__proto__] alone
    gets no entry, its assignment being the one that replaces the
    prototype.  [BaseClient.getUTXOs], in contrast, rejects the call as
    not implemented. *)
Theorem getUTXOs_not_overridden {UTXO : Type} (addresses : list string) :
  exists utxos : Dict (list UTXO),
    getUTXOs (fun _ => defaultGetUTXO) addresses = resolve utxos /\
    dom (entries utxos) =@{gset string} list_to_set addresses ∖ {["__proto__"]} /\
    (forall a found, entries utxos !! a = Some found -> found = []) /\
    @Simple.baseGetUTXOs UTXO addresses = reject NotImplementedError.
Proof.
  set (G := fun (index : nat) (a : string) => slot (Some <$> @defaultGetUTXO UTXO a)).
  exists (foldl (fun (acc : Dict (list UTXO)) (call : nat * string) =>
                   assign call.2 (default [] (G call.1 call.2)) acc)
                emptyDict (imap pair addresses)).
  split; [|split; [|split; [|done]]].
  - unfold getUTXOs. rewrite batchCall2SingleCall_unfold.
    destruct (settleAll_instant
                (map (fun call : nat * string => Some <$> @defaultGetUTXO UTXO call.2)
                     (imap pair addresses))) as [os ->].
    { apply Forall_map, Forall_forall. intros call _. by eexists. }
    rewrite andThen_fulfilled, later_resolve. unfold resolve. do 2 f_equal.
    exact (reduceFrom_putUTXOs G addresses [] emptyDict).
  - apply set_eq. intros a.
    rewrite elem_of_dom, elem_of_difference, elem_of_list_to_set, not_elem_of_singleton.
    destruct (decide (a = "__proto__")) as [->|Ha].
    + rewrite foldl_put_proto. cbn [entries emptyDict]. rewrite lookup_empty.
      split; [by intros [x Hx] | by intros [_ Hne]].
    + rewrite (foldl_put_is_Some G (imap pair addresses) emptyDict a Ha).
      cbn [entries emptyDict]. rewrite lookup_empty. split.
      * intros [[x Hx]|(call & Hin & Hc)]; [done|]. split; [|done].
        apply elem_of_lookup_imap_1 in Hin as (index & b & -> & Hi). cbn in Hc. subst.
        by eapply list_elem_of_lookup_2.
      * intros [Hin _]. right. apply list_elem_of_lookup in Hin as [index Hi].
        exists (index, a). split; [|done]. by apply (elem_of_lookup_imap_2 pair).
  - intros a found Hf.
    apply (foldl_put_value G) in Hf as [Hf|(call & _ & _ & ->)]; [|done].
    cbn [entries emptyDict] in Hf. by rewrite lookup_empty in Hf.
Qed.

(** X12.  Likewise [getTokenInfos] of a [SimpleClient] that does not
    override [getTokenInfo] resolves at once with one absent entry per
    token address, where [BaseClient.getTokenInfos] rejects. *)
Theorem getTokenInfos_not_overridden {PartialTokenInfo : Type} (tokenAddresses : list string) :
  Simple.getTokenInfos (@Simple.defaultGetTokenInfo PartialTokenInfo) tokenAddresses
    = resolve (replicate (length tokenAddresses) None) /\
  @Simple.baseGetTokenInfos PartialTokenInfo tokenAddresses = reject NotImplementedError.
Proof.
  split; [|done]. unfold Simple.getTokenInfos. rewrite batchCall2SingleCall_unfold.
  destruct (settleAll_instant
              (map (@Simple.defaultGetTokenInfo PartialTokenInfo) tokenAddresses)) as [os ->].
  { apply Forall_map, Forall_forall. intros a _. by eexists. }
  unfold resolve. do 2 f_equal.
  induction tokenAddresses as [|a l IH]; [done|].
  cbn [map length replicate]. rewrite IH. reflexivity.
Qed.

(** X13.  Unless a chain overrides [getBalance], [getBalances] is
    [getAddresses] on the addresses of the requests followed by the
    projection of the balance: the same instant, absent for the same
    items, and the coin of a request plays no part. *)
Theorem getBalances_through_getAddresses
    {AddressInfo BigNumber CoinInfo : Type}
    (balance : AddressInfo -> BigNumber) (getAddress : string -> Promise AddressInfo)
    (requests : list (@Simple.BalanceRequest CoinInfo)) :
  Simple.getBalances balance getAddress requests
    = (fun infos : list (option AddressInfo) => map (fmap balance) infos)
        <$> Simple.getAddresses getAddress (map Simple.address requests).
Proof.
  unfold Simple.getBalances, Simple.getAddresses, Simple.getBalance.
  rewrite !batchCall2SingleCall_unfold, !map_map.
  assert (forall l : list (@Simple.BalanceRequest CoinInfo),
            settleAll (map (fun i => Some <$> (balance <$> getAddress (Simple.address i))) l)
            = (fun r : N * list (Outcome (option AddressInfo)) =>
                 (r.1, map (fun o => match o with
                                     | Fulfilled v => Fulfilled (fmap balance v)
                                     | Rejected e => Rejected e
                                     end) r.2))
                <$> settleAll (map (fun x => Some <$> getAddress (Simple.address x)) l)) as Hall.
  { induction l as [|r l IH]; [done|]. cbn [map].
    destruct (getAddress (Simple.address r)) as [t [v|e]|].
    - rewrite !fmap_fulfilled. cbn [settleAll]. rewrite IH.
      by destruct (settleAll (map (fun x : Simple.BalanceRequest =>
                                     Some <$> getAddress (Simple.address x)) l))
        as [[t' os]|].
    - rewrite !fmap_rejected. cbn [settleAll]. rewrite IH.
      by destruct (settleAll (map (fun x : Simple.BalanceRequest =>
                                     Some <$> getAddress (Simple.address x)) l))
        as [[t' os]|].
    - done. }
  rewrite Hall.
  destruct (settleAll (map (fun x => Some <$> getAddress (Simple.address x)) requests))
    as [[t os]|]; [|done].
  cbn [fmap option_fmap option_map fst]. rewrite fmap_fulfilled. do 2 f_equal.
  rewrite map_map. apply map_ext. intros r.
  by destruct (getAddress (Simple.address r)) as [t' [v|e]|].
Qed.

(** ** [StcClient]: statuses, balances, accounts and gas *)

Lemma foldl_push {A B} (g : A -> list B) (items : list A) :
  forall acc, foldl (fun acc cur => (acc ++ g cur)%list) acc items
              = (acc ++ flat_map g items)%list.
Proof.
  induction items as [|x l IH]; intros acc; simpl.
  - by rewrite app_nil_r.
  - by rewrite IH, <- (assoc_L (++)).
Qed.

Lemma statusLoop_pairs (replies : list (JsVal * JsVal)) :
  Stc.statusLoop (flat_map (fun reply => [reply.1; reply.2]) replies)
    = map (fun reply => Stc.statusOf reply.1 reply.2) replies.
Proof.
  induction replies as [|[p r] l IH]; [done|].
  cbn [flat_map map fst snd app Stc.statusLoop]. by rewrite IH.
Qed.

(** X14.  [getTransactionStatuses] asks two questions per transaction id,
    in the order of the ids; when the batch answers them, the client
    resolves at the same instant with one status per id, the status of an
    id being decided by its own two replies alone. *)
Theorem getTransactionStatuses_per_txid
    (rpcBatchCall : list (string * JsVal) -> Promise (list JsVal))
    (txids : list string) (t : N) (replies : list (JsVal * JsVal)) :
  length replies = length txids ->
  rpcBatchCall (Stc.statusCalls txids)
    = Settles t (Fulfilled (flat_map (fun reply => [reply.1; reply.2]) replies)) ->
  Stc.statusCalls txids
    = flat_map (fun txid => [("txpool.pending_txn", JArray [JString txid]);
                             ("chain.get_transaction_info", JArray [JString txid])]) txids /\
  Stc.getTransactionStatuses rpcBatchCall txids
    = Settles t (Fulfilled (map (fun reply => Stc.statusOf reply.1 reply.2) replies)) /\
  length (map (fun reply => Stc.statusOf reply.1 reply.2) replies) = length txids.
Proof.
  intros Hlen Hrpc. split; [|split].
  - unfold Stc.statusCalls. by rewrite foldl_push.
  - unfold Stc.getTransactionStatuses. rewrite Hrpc, andThen_fulfilled, later_resolve.
    by rewrite statusLoop_pairs.
  - by rewrite length_map.
Qed.

Lemma getTransactionStatuses_per_txid_witness :
  let rpcBatchCall := fun _ : list (string * JsVal) =>
    Settles 30 (Fulfilled [JNull; JNull;
                           JObject [("hash", JString "0x02")]; JNull;
                           JNull; JObject [("status", JString "Executed")]]) in
  Stc.statusCalls ["0x01"; "0x02"; "0x03"]
    = flat_map (fun txid => [("txpool.pending_txn", JArray [JString txid]);
                             ("chain.get_transaction_info", JArray [JString txid])])
               ["0x01"; "0x02"; "0x03"] /\
  Stc.getTransactionStatuses rpcBatchCall ["0x01"; "0x02"; "0x03"]
    = Settles 30 (Fulfilled
        (map (fun reply => Stc.statusOf reply.1 reply.2)
             [(JNull, JNull);
              (JObject [("hash", JString "0x02")], JNull);
              (JNull, JObject [("status", JString "Executed")])])) /\
  length (map (fun reply => Stc.statusOf reply.1 reply.2)
              [(JNull, JNull);
               (JObject [("hash", JString "0x02")], JNull);
               (JNull, JObject [("status", JString "Executed")])])
    = length ["0x01"; "0x02"; "0x03"].
Proof.
  intros rpcBatchCall.
  apply (getTransactionStatuses_per_txid rpcBatchCall ["0x01"; "0x02"; "0x03"] 30
           [(JNull, JNull);
            (JObject [("hash", JString "0x02")], JNull);
            (JNull, JObject [("status", JString "Executed")])]).
  - reflexivity.
  - reflexivity.
Defined.

Example getTransactionStatuses_three :
  Stc.getTransactionStatuses
    (fun _ => resolve [JNull; JNull;
                       JObject [("hash", JString "0x02")]; JNull;
                       JNull; JObject [("status", JString "Executed")]])
    ["0x01"; "0x02"; "0x03"]
  = resolve [Some Stc.NOT_FOUND; Some Stc.PENDING; Some Stc.CONFIRM_AND_SUCCESS].
Proof. reflexivity. Qed.

(** X15.  How one pair of replies is read.  No status is given as soon
    as one of the two replies is [undefined].  Otherwise: NOT_FOUND
    exactly when both are [null]; PENDING exactly when the pool's reply
    is truthy, whatever the receipt says; CONFIRM_AND_SUCCESS exactly
    when the pool's reply is falsy and the receipt is an object whose
    [status] is the string "Executed"; CONFIRM_BUT_FAILED in every other
    case. *)
Theorem statusOf_reading (pendingTx receipt : JsVal) :
  (Stc.statusOf pendingTx receipt = None <->
   pendingTx = JUndefined \/ receipt = JUndefined) /\
  (Stc.statusOf pendingTx receipt = Some Stc.NOT_FOUND <->
   pendingTx = JNull /\ receipt = JNull) /\
  (Stc.statusOf pendingTx receipt = Some Stc.PENDING <->
   Stc.truthy pendingTx = true /\ receipt <> JUndefined) /\
  (Stc.statusOf pendingTx receipt = Some Stc.CONFIRM_AND_SUCCESS <->
   Stc.truthy pendingTx = false /\ pendingTx <> JUndefined /\
   exists fields, receipt = JObject fields /\
                  assoc "status" fields = Some (JString "Executed")).
Proof.
  assert (forall fields,
            strictEq (default JUndefined (assoc "status" fields)) (JString "Executed") = true
            <-> assoc "status" fields = Some (JString "Executed")) as Hexec.
  { intros fields. destruct (assoc "status" fields) as [v|]; simpl.
    - split.
      + intros H. destruct v; simpl in H; try done. apply String.eqb_eq in H. by subst.
      + intros H; inversion H; subst. reflexivity.
    - split; [done | by inversion 1]. }
  unfold Stc.statusOf.
  destruct receipt as [| |rb|rn|rs|ritems|rfields];
    destruct pendingTx as [| |pb|pn|ps|pitems|pfields]; cbn -[assoc];
    repeat match goal with
           | |- context [if ?b then _ else _] => destruct b eqn:?
           end;
    repeat split; try done; try tauto;
    try (intros [? ?]; congruence);
    try (intros (? & ? & ?); congruence);
    try (intros [?|?]; congruence);
    try (intros (? & ? & fields & ? & ?); congruence).
  all: try (intros _; repeat split; try done; eexists; split; [reflexivity|];
            by apply Hexec).
  all: try (intros (_ & _ & fields & Hf & Hs); inversion Hf; subst;
            apply Hexec in Hs; cbn in *; congruence).
  all: eexists; split; [reflexivity | by apply Hexec].
Qed.

Lemma mapThrowing_fulfilled {A B} (f : A -> Outcome B) (items : list A) (ys : list B) :
  Stc.mapThrowing f items = Fulfilled ys <-> Forall2 (fun x y => f x = Fulfilled y) items ys.
Proof.
  revert ys. induction items as [|x l IH]; intros ys; simpl.
  - split.
    + intros H; inversion H; constructor.
    + by inversion 1.
  - split.
    + destruct (f x) as [y|e] eqn:Hx; [|done].
      destruct (Stc.mapThrowing f l) as [ys'|e] eqn:Hl; [|done].
      intros H; inversion H; subst. constructor; [done|]. by apply IH.
    + inversion 1 as [|? y' ? ys'' Hy Hrest]; subst.
      rewrite Hy. apply IH in Hrest. by rewrite Hrest.
Qed.




Example stc_getBalances_two :
  Stc.getBalances (fun v => v)
    (fun _ => resolve [JNull;
                       JObject [("json", JObject [("token", JObject [("value", JNumber 42)])])];
                       JUndefined])
    [Stc.mkBalanceRequest "0xa" None; Stc.mkBalanceRequest "0xb" None;
     Stc.mkBalanceRequest "0xc" None]
  = resolve [Some (JNumber 0); Some (JNumber 42); None].
Proof. reflexivity. Qed.

Example stc_getBalances_malformed_reply :
  Stc.getBalances (fun v => v)
    (fun _ => resolve [JNull; JObject [("raw", JString "0x00")]])
    [Stc.mkBalanceRequest "0xa" None; Stc.mkBalanceRequest "0xb" None]
  = reject (Stc.typeError "token").
Proof. reflexivity. Qed.

(** X17.  Whatever value the dry run resolves with, [estimateGasLimit]
    resolves at the same instant: with the gas the node reports when the
    value is an object whose [status] is the string "Executed", and with
    the default limit of 127845 in every other case. *)
Theorem estimateGasLimit_total
    {BigNumber : Type} (bigNumber bigNumberOfParsedInt : JsVal -> BigNumber)
    (rpcCall : string -> JsVal -> Promise JsVal) (params : JsVal) (t : N) (resp : JsVal) :
  rpcCall "contract.dry_run" (JArray [params]) = Settles t (Fulfilled resp) ->
  exists limit,
    Stc.estimateGasLimit bigNumber bigNumberOfParsedInt rpcCall params
      = Settles t (Fulfilled limit) /\
    ((exists fields,
        resp = JObject fields /\ assoc "status" fields = Some (JString "Executed") /\
        limit = bigNumberOfParsedInt (default JUndefined (assoc "gas_used" fields))) \/
     ((forall fields, resp = JObject fields ->
                      assoc "status" fields <> Some (JString "Executed")) /\
      limit = bigNumber (JNumber 127845))).
Proof.
  intros Hrpc. unfold Stc.estimateGasLimit. rewrite Hrpc, andThen_fulfilled. cbn zeta.
  set (status := if Stc.isNullish resp then JUndefined
                 else default JUndefined (get "status" resp)).
  assert (strictEq status (JString "Executed") = true <->
          exists fields, resp = JObject fields /\
                         assoc "status" fields = Some (JString "Executed")) as Hexec.
  { subst status. split.
    - destruct resp as [| |b|n|s|items|fields]; try done. cbn -[assoc].
      intros H. exists fields. split; [done|].
      destruct (assoc "status" fields) as [v|]; [|done].
      destruct v; simpl in H; try done. apply String.eqb_eq in H. by subst.
    - intros (fields & -> & Hs). cbn -[assoc]. by rewrite Hs. }
  destruct (strictEq status (JString "Executed")) eqn:Hs;
    rewrite later_resolve; eexists; (split; [reflexivity|]).
  - left. destruct (proj1 Hexec eq_refl) as (fields & -> & Hf). by exists fields.
  - right. split; [|done]. intros fields -> Hf.
    assert (false = true) by (apply Hexec; by exists fields). done.
Qed.

Lemma estimateGasLimit_total_witness :
  let resp := JObject [("status", JString "Executed"); ("gas_used", JString "21000")] in
  exists limit,
    Stc.estimateGasLimit (fun v => v) (fun v => JArray [v]) (fun _ _ => Settles 12 (Fulfilled resp))
                         (JObject [])
      = Settles 12 (Fulfilled limit) /\
    ((exists fields,
        resp = JObject fields /\ assoc "status" fields = Some (JString "Executed") /\
        limit = JArray [default JUndefined (assoc "gas_used" fields)]) \/
     ((forall fields, resp = JObject fields ->
                      assoc "status" fields <> Some (JString "Executed")) /\
      limit = JNumber 127845)).
Proof.
  intros resp.
  apply (estimateGasLimit_total (fun v => v) (fun v => JArray [v])
           (fun _ _ => Settles 12 (Fulfilled resp)) (JObject []) 12 resp).
  reflexivity.
Defined.

Lemma flat_map_length_const {A B} (g : A -> list B) (k : nat) (items : list A) :
  (forall x, length (g x) = k) -> length (flat_map g items) = (k * length items)%nat.
Proof.
  intros Hg. induction items as [|x l IH]; simpl; [lia|].
  rewrite length_app, IH, Hg. lia.
Qed.

Lemma addressLoop_triples
    {BigNumber : Type} (bigNumber : JsVal -> BigNumber) (mathMax : JsVal -> JsVal -> JsVal)
    (replies : list (JsVal * JsVal * JsVal)) :
  Stc.addressLoop bigNumber mathMax
    (flat_map (fun reply => [reply.1.1; reply.1.2; reply.2]) replies)
  = Stc.mapThrowing (fun reply => Stc.infoOf bigNumber mathMax reply.1.1 reply.1.2 reply.2)
      replies.
Proof.
  induction replies as [|[[s n] b] l IH]; [done|].
  cbn [flat_map app fst snd Stc.addressLoop Stc.mapThrowing]. by rewrite IH.
Qed.

(** X18.  [StcClient.getAddresses] asks three questions per address, in
    the order of the addresses.  When the batch answers them and no reply
    is malformed, the client resolves at the same instant with one entry
    per address, read from the three replies of that address alone; an
    entry is absent exactly when one of its three replies is
    [undefined], and the account it describes is reported as not
    existing exactly when the reply for its state is [null]. *)
Theorem stc_getAddresses_per_address
    {BigNumber : Type} (bigNumber : JsVal -> BigNumber) (mathMax : JsVal -> JsVal -> JsVal)
    (rpcBatchCall : list (string * JsVal) -> Promise (list JsVal))
    (addresses : list string) (t : N) (replies : list (JsVal * JsVal * JsVal))
    (infos : list (option Stc.AddressInfo)) :
  rpcBatchCall (Stc.addressCalls addresses)
    = Settles t (Fulfilled (flat_map (fun reply => [reply.1.1; reply.1.2; reply.2]) replies)) ->
  Forall2 (fun reply info =>
             Stc.infoOf bigNumber mathMax reply.1.1 reply.1.2 reply.2 = Fulfilled info)
          replies infos ->
  length (Stc.addressCalls addresses) = (3 * length addresses)%nat /\
  Stc.getAddresses bigNumber rpcBatchCall mathMax addresses = Settles t (Fulfilled infos) /\
  length infos = length replies /\
  (forall i reply info,
     replies !! i = Some reply -> infos !! i = Some info ->
     (info = None <->
      reply.1.1 = JUndefined \/ reply.1.2 = JUndefined \/ reply.2 = JUndefined) /\
     (forall account, info = Some account ->
        (Stc.existing account = false <-> reply.1.1 = JNull))).
Proof.
  intros Hrpc Hall. split; [|split; [|split]].
  - unfold Stc.addressCalls. rewrite foldl_push, app_nil_l.
    apply flat_map_length_const. by intros a.
  - unfold Stc.getAddresses. rewrite Hrpc, andThen_fulfilled, addressLoop_triples.
    apply mapThrowing_fulfilled in Hall as ->. unfold Stc.settle. simpl.
    by rewrite N.add_0_r.
  - symmetry. by eapply Forall2_length.
  - intros i [[s n] b] info Hr Hi.
    pose proof (Forall2_lookup_lr _ _ _ _ _ _ Hall Hr Hi) as Hinfo. simpl in Hinfo |- *.
    unfold Stc.infoOf in Hinfo.
    destruct s as [| |sb|sn|ss|sitems|sfields];
      destruct n as [| |nb|nn|ns|nitems|nfields];
      destruct b as [| |bb|bn|bs|bitems|bfields];
      cbn -[Stc.tokenValue Stc.sequenceNumber] in Hinfo;
      try (inversion Hinfo; subst; split;
           [split; [intros _; tauto | done] | intros account Hacc; done]);
      destruct (Stc.tokenValue _) as [value|e]; try done;
      destruct (Stc.sequenceNumber _) as [sequence|e]; try done;
      inversion Hinfo; subst;
      (split;
       [split; [done | intros [?|[?|?]]; done]
       |intros account Hacc; inversion Hacc; subst; simpl; split; done]).
Qed.

Lemma stc_getAddresses_per_address_witness :
  let bigNumber := fun v : JsVal => v in
  let mathMax := fun a b : JsVal => JArray [a; b] in
  let replies :=
    [(JNull, JNumber 0, JNull);
     (JObject [("json", JObject [("sequence_number", JNumber 7)])], JNumber 9,
      JObject [("json", JObject [("token", JObject [("value", JNumber 42)])])])] in
  let rpcBatchCall := fun _ : list (string * JsVal) =>
    Settles 18 (Fulfilled (flat_map (fun reply : JsVal * JsVal * JsVal =>
                                       [reply.1.1; reply.1.2; reply.2]) replies)) in
  let infos :=
    [Some (Stc.mkAddressInfo (JNumber 0) (JArray [JNumber 0; JNumber 0]) false);
     Some (Stc.mkAddressInfo (JNumber 42) (JArray [JNumber 7; JNumber 9]) true)] in
  length (Stc.addressCalls ["0xa"; "0xb"]) = (3 * length ["0xa"; "0xb"])%nat /\
  Stc.getAddresses bigNumber rpcBatchCall mathMax ["0xa"; "0xb"]
    = Settles 18 (Fulfilled infos) /\
  length infos = length replies /\
  (forall i reply info,
     replies !! i = Some reply -> infos !! i = Some info ->
     (info = None <->
      reply.1.1 = JUndefined \/ reply.1.2 = JUndefined \/ reply.2 = JUndefined) /\
     (forall account, info = Some account ->
        (Stc.existing account = false <-> reply.1.1 = JNull))).
Proof.
  intros bigNumber mathMax replies rpcBatchCall infos.
  apply (stc_getAddresses_per_address bigNumber mathMax rpcBatchCall ["0xa"; "0xb"] 18
           replies infos).
  - reflexivity.
  - repeat constructor.
Defined.

(** ** The NEAR provider *)

Section RegexFacts.
Import Near.
Implicit Types (r s : Regex) (x y z : list ascii) (c : ascii).

Lemma Matches_Void z : ~ Matches Void z.
Proof. inversion 1. Qed.

Lemma Matches_Eps z : Matches Eps z <-> z = [].
Proof. split; [by inversion 1 | intros ->; constructor]. Qed.

Lemma Matches_Class member z :
  Matches (Class member) z <-> exists c, z = [c] /\ member c = true.
Proof.
  split.
  - inversion 1; subst. by eexists.
  - intros (c & -> & Hc). by constructor.
Qed.

Lemma Matches_Cat r s z :
  Matches (Cat r s) z <-> exists x y, z = (x ++ y)%list /\ Matches r x /\ Matches s y.
Proof.
  split.
  - inversion 1; subst. by eexists _, _.
  - intros (x & y & -> & Hx & Hy). by constructor.
Qed.

Lemma Matches_Alt r s z : Matches (Alt r s) z <-> Matches r z \/ Matches s z.
Proof.
  split.
  - inversion 1; subst; tauto.
  - intros [H|H]; [by apply MAltL | by apply MAltR].
Qed.

(** A non-empty match of [r*] starts with a non-empty match of [r]. *)
Lemma Matches_Star_cons r c z :
  Matches (Star r) (c :: z) <->
  exists x y, z = (x ++ y)%list /\ Matches r (c :: x) /\ Matches (Star r) y.
Proof.
  split.
  - intros H. remember (Star r) as sr eqn:Hsr. remember (c :: z) as cz eqn:Hcz.
    revert c z Hcz. induction H as [| | | | | |r' x y Hx _ Hy IHy]; intros d w Hcz;
      try discriminate.
    inversion Hsr; subst r'. destruct x as [|c' x'].
    + simpl in Hcz. by apply IHy.
    + simpl in Hcz. inversion Hcz; subst. by exists x', y.
  - intros (x & y & -> & Hx & Hy). change (c :: x ++ y)%list with ((c :: x) ++ y)%list.
    by constructor.
Qed.

Lemma Matches_Star r z :
  Matches (Star r) z <->
  z = [] \/ exists x y, z = (x ++ y)%list /\ Matches r x /\ Matches (Star r) y.
Proof.
  split.
  - inversion 1; subst; [by left | right; by eexists _, _].
  - intros [->|(x & y & -> & Hx & Hy)]; by constructor.
Qed.

Lemma nullable_correct r : nullable r = true <-> Matches r [].
Proof.
  induction r as [| |member|r IHr s IHs|r IHr s IHs|r IHr]; simpl.
  - split; [done | by intros H%Matches_Void].
  - split; [constructor | done].
  - split; [done|]. intros (c & Hc & _)%Matches_Class. done.
  - rewrite andb_true_iff, IHr, IHs, Matches_Cat. split.
    + intros [Hr Hs]. by exists [], [].
    + intros (x & y & Hxy & Hx & Hy). symmetry in Hxy.
      apply app_eq_nil in Hxy as [-> ->]. done.
  - by rewrite orb_true_iff, IHr, IHs, Matches_Alt.
  - split; [constructor | done].
Qed.

Lemma deriv_correct r c z : Matches (deriv c r) z <-> Matches r (c :: z).
Proof.
  revert z. induction r as [| |member|r IHr s IHs|r IHr s IHs|r IHr]; intros z; simpl.
  - split; by intros H%Matches_Void.
  - split; [by intros H%Matches_Void | by intros H%Matches_Eps].
  - rewrite Matches_Class. destruct (member c) eqn:Hc.
    + rewrite Matches_Eps. split.
      * intros ->. by exists c.
      * intros (c' & Hz & _). by inversion Hz.
    + split; [by intros H%Matches_Void|]. intros (c' & Hz & Hc'). inversion Hz; subst.
      congruence.
  - assert (Matches (Cat (deriv c r) s) z \/ (Matches r [] /\ Matches s (c :: z))
            <-> Matches (Cat r s) (c :: z)) as Hcat.
    { rewrite !Matches_Cat. split.
      - intros [(x & y & -> & Hx & Hy)|[Hr Hs]].
        + exists (c :: x), y. by rewrite <- IHr.
        + by exists [], (c :: z).
      - intros (x & y & Hxy & Hx & Hy). destruct x as [|c' x'].
        + simpl in Hxy. subst y. by right.
        + simpl in Hxy. inversion Hxy; subst. left. exists x', y. by rewrite IHr. }
    destruct (nullable r) eqn:Hn.
    + rewrite Matches_Alt, IHs, <- Hcat.
      apply nullable_correct in Hn. tauto.
    + rewrite <- Hcat. split; [tauto|]. intros [H|[Hr _]]; [done|].
      apply nullable_correct in Hr. congruence.
  - by rewrite !Matches_Alt, IHr, IHs.
  - rewrite Matches_Cat, Matches_Star_cons. split.
    + intros (x & y & -> & Hx & Hy). exists x, y. by rewrite <- IHr.
    + intros (x & y & -> & Hx & Hy). exists x, y. by rewrite IHr.
Qed.

(** The matcher decides the language of the pattern. *)
Lemma accepts_correct r z : accepts r z = true <-> Matches r z.
Proof.
  revert r. induction z as [|c z IH]; intros r; simpl.
  - apply nullable_correct.
  - by rewrite IH, deriv_correct.
Qed.

(** [[...]+] and [[...]{n}]. *)
Lemma Matches_Star_Class member z :
  Matches (Star (Class member)) z <-> forallb member z = true.
Proof.
  induction z as [|c z IH]; simpl.
  - split; [done | constructor].
  - rewrite Matches_Star_cons, andb_true_iff, <- IH. split.
    + intros (x & y & -> & (c' & Hx & Hc)%Matches_Class & Hy).
      inversion Hx; subst. done.
    + intros [Hc Hz]. exists [], z. repeat split; [|done]. by constructor.
Qed.

Lemma Matches_Plus_Class member z :
  Matches (Plus (Class member)) z <-> z <> [] /\ forallb member z = true.
Proof.
  unfold Plus. rewrite Matches_Cat. split.
  - intros (x & y & -> & (c & -> & Hc)%Matches_Class & Hy%Matches_Star_Class).
    simpl. by rewrite Hc, Hy.
  - intros [Hne Hall]. destruct z as [|c z]; [done|]. simpl in Hall.
    apply andb_true_iff in Hall as [Hc Hz].
    exists [c], z. repeat split; [by constructor | by apply Matches_Star_Class].
Qed.

Lemma Matches_Times_Class member n z :
  Matches (Times n (Class member)) z <-> length z = n /\ forallb member z = true.
Proof.
  revert z. induction n as [|n IH]; intros z; simpl.
  - rewrite Matches_Eps. split; [by intros -> | by intros [->%nil_length_inv _]].
  - rewrite Matches_Cat. split.
    + intros (x & y & -> & (c & -> & Hc)%Matches_Class & Hy%IH). simpl.
      destruct Hy as [-> ->]. by rewrite Hc.
    + intros [Hlen Hall]. destruct z as [|c z]; [done|]. simpl in *.
      apply andb_true_iff in Hall as [Hc Hz].
      exists [c], z. repeat split; [by constructor|]. apply IH. split; [lia | done].
Qed.

End RegexFacts.

Section AccountNames.
Import Near.
Implicit Types (x y z w : list ascii) (c : ascii) (b : bool).

Local Abbreviation WORD := (Plus (Class lowerOrDigit)).
Local Abbreviation DASHED := (Star (Cat (Plus (Class lowerOrDigit)) (Class dashOrUnderscore))).
Local Abbreviation LABEL :=
  (Cat (Star (Cat (Plus (Class lowerOrDigit)) (Class dashOrUnderscore)))
       (Plus (Class lowerOrDigit))).
Local Abbreviation DOTTED :=
  (Star (Cat (Cat (Star (Cat (Plus (Class lowerOrDigit)) (Class dashOrUnderscore)))
                  (Plus (Class lowerOrDigit)))
             (Class dot))).

Lemma separator_not_word c :
  dashOrUnderscore c || dot c = true -> lowerOrDigit c = false.
Proof.
  unfold dashOrUnderscore, dot. rewrite !orb_true_iff, !Ascii.eqb_eq.
  intros [[->| ->]| ->]; reflexivity.
Qed.

(** *** From the pattern to the scan *)

Lemma scan_letters w b rest :
  forallb lowerOrDigit w = true -> w <> [] ->
  wellFormedFrom b (w ++ rest) = wellFormedFrom true rest.
Proof.
  intros Hall Hne. revert b. induction w as [|c w IH]; intros b; [done|].
  simpl in Hall. apply andb_true_iff in Hall as [Hc Hw]. simpl. rewrite Hc.
  destruct w as [|c' w']; [done|]. by apply IH.
Qed.

Lemma scan_separator c rest :
  dashOrUnderscore c || dot c = true ->
  wellFormedFrom true (c :: rest) = wellFormedFrom false rest.
Proof.
  intros Hsep. simpl. by rewrite (separator_not_word c Hsep), Hsep.
Qed.

Lemma scan_word w b rest :
  Matches WORD w -> wellFormedFrom b (w ++ rest) = wellFormedFrom true rest.
Proof. intros [Hne Hall]%Matches_Plus_Class. by apply scan_letters. Qed.

(** A repetition of blocks that each leave the scan right after a
    separator leaves it in a state that does not depend on what
    follows. *)
Lemma scan_blocks r :
  (forall x, Matches r x -> forall b rest,
     wellFormedFrom b (x ++ rest) = wellFormedFrom false rest) ->
  forall x, Matches (Star r) x ->
  forall b, exists b', forall rest,
    wellFormedFrom b (x ++ rest) = wellFormedFrom b' rest.
Proof.
  intros Hblock x Hx. remember (Star r) as sr eqn:Hsr.
  induction Hx as [| | | | |r'|r' x y Hx _ Hy IHy]; try discriminate.
  - intros b. by exists b.
  - inversion Hsr; subst r'. intros b.
    destruct (IHy eq_refl false) as [b' Hb']. exists b'. intros rest.
    by rewrite <- (assoc_L (++)), (Hblock x Hx), Hb'.
Qed.

Lemma scan_dashed_block x b rest :
  Matches (Cat WORD (Class dashOrUnderscore)) x ->
  wellFormedFrom b (x ++ rest) = wellFormedFrom false rest.
Proof.
  intros (w & s & -> & Hw & (c & -> & Hc)%Matches_Class)%Matches_Cat.
  rewrite <- (assoc_L (++)), (scan_word w b _ Hw). simpl (_ ++ _)%list.
  apply scan_separator. by rewrite Hc.
Qed.

Lemma scan_label x b rest :
  Matches LABEL x -> wellFormedFrom b (x ++ rest) = wellFormedFrom true rest.
Proof.
  intros (d & w & -> & Hd & Hw)%Matches_Cat.
  destruct (scan_blocks _ (fun x Hx b rest => scan_dashed_block x b rest Hx) d Hd b)
    as [b' Hb'].
  by rewrite <- (assoc_L (++)), Hb', (scan_word w b' rest Hw).
Qed.

Lemma scan_dotted_block x b rest :
  Matches (Cat LABEL (Class dot)) x ->
  wellFormedFrom b (x ++ rest) = wellFormedFrom false rest.
Proof.
  intros (l & s & -> & Hl & (c & -> & Hc)%Matches_Class)%Matches_Cat.
  rewrite <- (assoc_L (++)), (scan_label l b _ Hl). simpl (_ ++ _)%list.
  apply scan_separator. by rewrite Hc, orb_true_r.
Qed.

Lemma register_well_formed z :
  Matches REGISTER_ACCOUNT_PATTERN z -> wellFormedFrom false z = true.
Proof.
  unfold REGISTER_ACCOUNT_PATTERN.
  intros (d & l & -> & Hd & Hl)%Matches_Cat.
  destruct (scan_blocks _ (fun x Hx b rest => scan_dotted_block x b rest Hx) d Hd false)
    as [b' Hb'].
  rewrite <- (app_nil_r l), Hb'. by rewrite (scan_label l b' [] Hl).
Qed.

(** *** From the scan to the pattern *)

Lemma word_of_letters w :
  w <> [] -> forallb lowerOrDigit w = true -> Matches WORD w.
Proof. intros Hne Hall. by apply Matches_Plus_Class. Qed.

Lemma label_of_word w : Matches WORD w -> Matches LABEL w.
Proof.
  intros Hw. change w with ([] ++ w)%list. constructor; [constructor | done].
Qed.

Lemma label_dash w c l :
  Matches WORD w -> dashOrUnderscore c = true -> Matches LABEL l ->
  Matches LABEL (w ++ c :: l).
Proof.
  intros Hw Hc (d & w' & -> & Hd & Hw')%Matches_Cat.
  replace (w ++ c :: d ++ w')%list with (((w ++ [c]) ++ d) ++ w')%list
    by (by rewrite <- !(assoc_L (++))).
  constructor; [|done]. constructor; [|done].
  constructor; [done | by constructor].
Qed.

Lemma register_of_label l : Matches LABEL l -> Matches REGISTER_ACCOUNT_PATTERN l.
Proof.
  intros Hl. unfold REGISTER_ACCOUNT_PATTERN. change l with ([] ++ l)%list.
  constructor; [constructor | done].
Qed.

Lemma register_dot w z :
  Matches WORD w -> Matches REGISTER_ACCOUNT_PATTERN z ->
  Matches REGISTER_ACCOUNT_PATTERN (w ++ "."%char :: z).
Proof.
  unfold REGISTER_ACCOUNT_PATTERN.
  intros Hw (d & l & -> & Hd & Hl)%Matches_Cat.
  replace (w ++ "."%char :: d ++ l)%list with (((w ++ ["."%char]) ++ d) ++ l)%list
    by (by rewrite <- !(assoc_L (++))).
  constructor; [|done]. constructor; [|done].
  constructor; [by apply label_of_word | by constructor].
Qed.

Lemma register_dash w c z :
  Matches WORD w -> dashOrUnderscore c = true -> Matches REGISTER_ACCOUNT_PATTERN z ->
  Matches REGISTER_ACCOUNT_PATTERN (w ++ c :: z).
Proof.
  unfold REGISTER_ACCOUNT_PATTERN.
  intros Hw Hc (d & l & -> & Hd & Hl)%Matches_Cat.
  apply Matches_Star in Hd as [->|(x & y & -> & Hx & Hy)].
  - simpl. change (w ++ c :: l)%list with ([] ++ (w ++ c :: l))%list.
    constructor; [constructor | by apply label_dash].
  - apply Matches_Cat in Hx as (l1 & s & -> & Hl1 & Hs).
    replace (w ++ c :: ((l1 ++ s) ++ y) ++ l)%list
      with ((((w ++ c :: l1) ++ s) ++ y) ++ l)%list
      by (by rewrite <- !(assoc_L (++))).
    constructor; [|done]. constructor; [|done].
    constructor; [by apply label_dash | done].
Qed.

Lemma well_formed_register z :
  (wellFormedFrom true z = true ->
   forall w, w <> [] -> forallb lowerOrDigit w = true ->
             Matches REGISTER_ACCOUNT_PATTERN (w ++ z)) /\
  (wellFormedFrom false z = true -> Matches REGISTER_ACCOUNT_PATTERN z).
Proof.
  induction z as [|c z [IHword IHstart]].
  - split; [|done]. intros _ w Hne Hall. rewrite app_nil_r.
    by apply register_of_label, label_of_word, word_of_letters.
  - simpl. destruct (lowerOrDigit c) eqn:Hletter.
    + split.
      * intros Hz w Hne Hall.
        replace (w ++ c :: z)%list with ((w ++ [c]) ++ z)%list
          by (by rewrite <- (assoc_L (++))).
        apply IHword; [done | by destruct w |].
        by rewrite forallb_app, Hall; simpl; rewrite Hletter.
      * intros Hz. change (c :: z) with ([c] ++ z)%list.
        apply IHword; [done | done |]. simpl. by rewrite Hletter.
    + destruct (dashOrUnderscore c) eqn:Hdash; simpl.
      * split; [|done]. intros Hz w Hne Hall.
        apply register_dash; [by apply word_of_letters | done | by apply IHstart].
      * destruct (dot c) eqn:Hdot; simpl; [|done].
        split; [|done]. intros Hz w Hne Hall.
        unfold dot in Hdot. apply Ascii.eqb_eq in Hdot as ->.
        apply register_dot; [by apply word_of_letters | by apply IHstart].
Qed.

(** The pattern of registered accounts, read as a scan. *)
Lemma register_pattern_scan (address : string) :
  test REGISTER_ACCOUNT_PATTERN address = wellFormed address.
Proof.
  unfold test, wellFormed. apply eq_true_iff_eq.
  rewrite accepts_correct. split.
  - apply register_well_formed.
  - apply well_formed_register.
Qed.

(** The pattern of implicit accounts: 64 lower-case letters or digits. *)
Lemma implicit_pattern_scan (address : string) :
  test IMPLICIT_ACCOUNT_PATTERN address
  = (String.length address =? 64)%nat
    && forallb lowerOrDigit (list_ascii_of_string address).
Proof.
  unfold test. apply eq_true_iff_eq.
  rewrite accepts_correct. unfold IMPLICIT_ACCOUNT_PATTERN.
  rewrite Matches_Times_Class, andb_true_iff, Nat.eqb_eq.
  assert (length (list_ascii_of_string address) = String.length address) as ->; [|done].
  induction address as [|c s IH]; simpl; [done | by rewrite IH].
Qed.

End AccountNames.

Section NearStrings.
Import Near.

Lemma chars_append (s1 s2 : string) :
  list_ascii_of_string (s1 +:+ s2)
  = (list_ascii_of_string s1 ++ list_ascii_of_string s2)%list.
Proof.
  induction s1 as [|c s IH]; [done|].
  change (String c s +:+ s2) with (String c (s +:+ s2)). simpl. by rewrite IH.
Qed.

Lemma splitOn_nonempty separator chars : splitOn separator chars <> [].
Proof.
  induction chars as [|c rest IH]; simpl; [done|].
  destruct (Ascii.eqb c separator); [done|]. by destruct (splitOn separator rest).
Qed.

Lemma splitOn_free separator chars :
  existsb (Ascii.eqb separator) chars = false -> splitOn separator chars = [chars].
Proof.
  induction chars as [|c rest IH]; simpl; [done|].
  rewrite orb_false_iff, Ascii.eqb_sym. intros [-> Hrest]. by rewrite IH.
Qed.

Lemma splitOn_first separator piece rest :
  existsb (Ascii.eqb separator) piece = false ->
  splitOn separator (piece ++ separator :: rest) = piece :: splitOn separator rest.
Proof.
  induction piece as [|c piece IH]; simpl.
  - by rewrite Ascii.eqb_refl.
  - rewrite orb_false_iff, Ascii.eqb_sym. intros [-> Hrest]. by rewrite IH.
Qed.

(** A well-formed account name has no colon. *)
Lemma wellFormedFrom_allowed b chars :
  wellFormedFrom b chars = true ->
  forallb (fun c => lowerOrDigit c || dashOrUnderscore c || dot c) chars = true.
Proof.
  revert b. induction chars as [|c rest IH]; intros b; [done|].
  cbn [wellFormedFrom forallb].
  destruct (lowerOrDigit c); cbn [orb andb]; [by apply IH|].
  destruct (dashOrUnderscore c || dot c) eqn:Hsep; [|done].
  cbn [orb andb]. intros [_ H]%andb_true_iff. by eapply IH.
Qed.

Lemma wellFormed_no_colon (address : string) :
  wellFormed address = true -> includes ":" address = false.
Proof.
  unfold wellFormed, includes. intros H%wellFormedFrom_allowed.
  induction (list_ascii_of_string address) as [|c rest IH]; simpl in *; [done|].
  apply andb_true_iff in H as [Hc Hrest]. rewrite (IH Hrest), orb_false_r.
  destruct (Ascii.eqb ":" c) eqn:E; [|done]. apply Ascii.eqb_eq in E. by subst.
Qed.

Lemma letters_well_formed chars :
  chars <> [] -> forallb lowerOrDigit chars = true -> wellFormedFrom false chars = true.
Proof.
  intros Hne Hall. rewrite <- (app_nil_r chars).
  by rewrite (scan_letters chars false [] Hall Hne).
Qed.

Lemma hexOfByte_letters (b : Byte.byte) : forallb lowerOrDigit (hexOfByte b) = true.
Proof. destruct b; reflexivity. Qed.

Lemma toHex_chars (bytes : list Byte.byte) :
  length (flat_map hexOfByte bytes) = (2 * length bytes)%nat /\
  forallb lowerOrDigit (flat_map hexOfByte bytes) = true.
Proof.
  induction bytes as [|b l [IHlen IHall]]; [done|]. split.
  - cbn [flat_map]. rewrite length_app, IHlen. simpl. lia.
  - cbn [flat_map]. by rewrite forallb_app, hexOfByte_letters, IHall.
Qed.

Lemma Near_splitOn_first_literal (rest : list ascii) :
  splitOn ":" (list_ascii_of_string "ed25519:" ++ rest)
  = list_ascii_of_string "ed25519" :: splitOn ":" rest.
Proof. reflexivity. Qed.

Lemma Near_append_empty (s : string) : s +:+ EmptyString = s.
Proof.
  induction s as [|c s IH]; [done|].
  change (String c s +:+ EmptyString) with (String c (s +:+ EmptyString)). by rewrite IH.
Qed.

Lemma Near_append_assoc (s1 s2 s3 : string) : (s1 +:+ s2) +:+ s3 = s1 +:+ (s2 +:+ s3).
Proof.
  induction s1 as [|c s IH]; [done|].
  change ((String c s +:+ s2) +:+ s3) with (String c ((s +:+ s2) +:+ s3)).
  change (String c s +:+ s2 +:+ s3) with (String c (s +:+ s2 +:+ s3)). by rewrite IH.
Qed.

End NearStrings.

(** X19.  How [verifyAddress] reads an account name.  An address that
    matches the pattern of registered accounts is valid and returned
    unchanged as normalized and display address; its encoding is
    IMPLICIT_ACCOUNT when it consists of exactly 64 lower-case letters
    and digits, and REGISTER_ACCOUNT otherwise.  An address that does not
    match that pattern and has no colon is invalid.  (Whatever matches
    the pattern of implicit accounts matches the pattern of registered
    accounts too.) *)
Theorem near_verifyAddress_account_names
    (baseDecode : string -> option (list Byte.byte)) (address : string) :
  (Near.test Near.REGISTER_ACCOUNT_PATTERN address = true ->
   Near.verifyAddress baseDecode address
     = Near.valid address
         (if (String.length address =? 64)%nat
             && forallb Near.lowerOrDigit (list_ascii_of_string address)
          then "IMPLICIT_ACCOUNT" else "REGISTER_ACCOUNT")) /\
  (Near.test Near.REGISTER_ACCOUNT_PATTERN address = false ->
   Near.includes ":" address = false ->
   Near.verifyAddress baseDecode address = Near.invalid) /\
  (Near.test Near.IMPLICIT_ACCOUNT_PATTERN address = true ->
   Near.test Near.REGISTER_ACCOUNT_PATTERN address = true).
Proof.
  assert (Near.test Near.IMPLICIT_ACCOUNT_PATTERN address = true ->
          Near.test Near.REGISTER_ACCOUNT_PATTERN address = true) as Hsub.
  { rewrite implicit_pattern_scan, register_pattern_scan.
    intros [Hlen Hall]%andb_true_iff. apply Nat.eqb_eq in Hlen.
    unfold Near.wellFormed. apply letters_well_formed; [|done].
    destruct address; [done | discriminate]. }
  split; [|split; [|done]].
  - unfold Near.verifyAddress. intros ->. rewrite implicit_pattern_scan.
    by destruct (_ && _).
  - unfold Near.verifyAddress. intros Hreg Hcolon. rewrite Hreg, Hcolon.
    destruct (Near.test Near.IMPLICIT_ACCOUNT_PATTERN address) eqn:Himp; [|done].
    rewrite (Hsub eq_refl) in Hreg. done.
Qed.

Lemma near_verifyAddress_account_names_examples :
  Near.verifyAddress (fun _ => None) "alice.near"
    = Near.valid "alice.near" "REGISTER_ACCOUNT" /\
  Near.verifyAddress (fun _ => None)
      "98793cd91a3f870fb126f66285808c7e094afcfc4eda8a970f6648cdf0dbd6de"
    = Near.valid "98793cd91a3f870fb126f66285808c7e094afcfc4eda8a970f6648cdf0dbd6de"
                 "IMPLICIT_ACCOUNT" /\
  Near.verifyAddress (fun _ => None) "Alice.near" = Near.invalid /\
  Near.verifyAddress (fun _ => None) "alice..near" = Near.invalid /\
  Near.verifyAddress (fun _ => None) EmptyString = Near.invalid.
Proof. repeat split; vm_compute; reflexivity. Qed.

Section Shape.
Import Near.
Implicit Types (chars pre post : list ascii) (c : ascii) (b : bool).

Lemma scan_last b chars :
  wellFormedFrom b chars = true ->
  (chars = [] /\ b = true) \/
  exists init c, chars = (init ++ [c])%list /\ lowerOrDigit c = true.
Proof.
  revert b. induction chars as [|c rest IH]; intros b; [by left|].
  cbn [wellFormedFrom]. intros H. right.
  assert (exists b', wellFormedFrom b' rest = true /\ (b' = true -> lowerOrDigit c = true))
    as (b' & Hrest & Hb').
  { destruct (lowerOrDigit c); [by exists true|].
    destruct (dashOrUnderscore c || dot c); [|done].
    apply andb_true_iff in H as [_ H]. by exists false. }
  destruct (IH b' Hrest) as [[-> ->]|(init & c' & -> & Hc')].
  - exists [], c. split; [done | by apply Hb'].
  - exists (c :: init), c'. by split.
Qed.

Lemma scan_adjacent b pre c1 c2 post :
  wellFormedFrom b (pre ++ c1 :: c2 :: post) = true ->
  lowerOrDigit c1 || lowerOrDigit c2 = true.
Proof.
  revert b. induction pre as [|c pre IH]; intros b.
  - cbn [app wellFormedFrom]. destruct (lowerOrDigit c1); [done|].
    destruct (dashOrUnderscore c1 || dot c1); [|done].
    intros [_ H]%andb_true_iff. destruct (lowerOrDigit c2); [done|].
    by destruct (dashOrUnderscore c2 || dot c2).
  - cbn [app wellFormedFrom]. destruct (lowerOrDigit c); [by apply IH|].
    destruct (dashOrUnderscore c || dot c); [|done].
    intros [_ H]%andb_true_iff. by eapply IH.
Qed.

Lemma scan_of_shape chars :
  forallb allowedChar chars = true ->
  (exists init c, chars = (init ++ [c])%list /\ lowerOrDigit c = true) ->
  (forall pre c1 c2 post, chars = (pre ++ c1 :: c2 :: post)%list ->
                          lowerOrDigit c1 || lowerOrDigit c2 = true) ->
  forall b,
    (b = true \/ exists c rest, chars = c :: rest /\ lowerOrDigit c = true) ->
    wellFormedFrom b chars = true.
Proof.
  induction chars as [|c rest IH]; intros Hall Hlast Hadj b Hb.
  { destruct Hlast as (init & c & Hnil & _). by destruct init. }
  cbn [forallb] in Hall. apply andb_true_iff in Hall as [Hc Hall].
  assert (rest <> [] ->
          (exists init c', rest = (init ++ [c'])%list /\ lowerOrDigit c' = true)) as Hlast'.
  { intros Hne. destruct Hlast as (init & c' & Heq & Hc').
    destruct init as [|c0 init]; simpl in Heq; inversion Heq; subst; [done|].
    by exists init, c'. }
  assert (forall pre c1 c2 post, rest = (pre ++ c1 :: c2 :: post)%list ->
                                 lowerOrDigit c1 || lowerOrDigit c2 = true) as Hadj'.
  { intros pre c1 c2 post ->. by apply (Hadj (c :: pre) c1 c2 post). }
  cbn [wellFormedFrom]. destruct (lowerOrDigit c) eqn:Hletter.
  - destruct rest as [|c' rest']; [done|].
    apply IH; [done | by apply Hlast' | done | by left].
  - unfold allowedChar in Hc. rewrite Hletter in Hc. cbn [orb] in Hc. rewrite Hc.
    destruct Hb as [->|(c0 & rest0 & Heq & Hc0)]; [|inversion Heq; congruence].
    cbn [andb]. destruct rest as [|c' rest'].
    { destruct Hlast as (init & c' & Heq & Hc').
      destruct init as [|c0 [|c1 init]]; simpl in Heq; inversion Heq; congruence. }
    apply IH; [done | by apply Hlast' | done |]. right. exists c', rest'. split; [done|].
    specialize (Hadj [] c c' rest' eq_refl). by rewrite Hletter in Hadj.
Qed.

End Shape.

(** X20.  The pattern of registered accounts, in plain terms: an address
    matches it exactly when it is made of lower-case letters, digits,
    [-], [_] and [.] only, begins and ends with a letter or digit, and
    never has two separators next to each other.  So an upper-case
    letter, a leading or trailing separator or a doubled separator is
    never accepted in an account name. *)
Theorem near_register_pattern_shape (address : string) :
  Near.test Near.REGISTER_ACCOUNT_PATTERN address = true <->
  forallb Near.allowedChar (list_ascii_of_string address) = true /\
  (exists c rest, list_ascii_of_string address = c :: rest /\ Near.lowerOrDigit c = true) /\
  (exists init c, list_ascii_of_string address = (init ++ [c])%list /\
                  Near.lowerOrDigit c = true) /\
  (forall pre c1 c2 post,
     list_ascii_of_string address = (pre ++ c1 :: c2 :: post)%list ->
     Near.lowerOrDigit c1 || Near.lowerOrDigit c2 = true).
Proof.
  rewrite register_pattern_scan. unfold Near.wellFormed. split.
  - intros Hwf. split; [|split; [|split]].
    + by apply (wellFormedFrom_allowed false).
    + destruct (list_ascii_of_string address) as [|c rest]; [done|].
      exists c, rest. split; [done|]. cbn [Near.wellFormedFrom] in Hwf.
      destruct (Near.lowerOrDigit c); [done|].
      by destruct (Near.dashOrUnderscore c || Near.dot c).
    + by destruct (scan_last false _ Hwf) as [[_ ?]|?].
    + intros pre c1 c2 post Heq. rewrite Heq in Hwf. by eapply scan_adjacent.
  - intros (Hall & Hfirst & Hlast & Hadj). apply scan_of_shape; try done. by right.
Qed.

Lemma verifyAddress_ed25519
    (baseDecode : string -> option (list Byte.byte))
    (encoded rest : string) (bytes : list Byte.byte) :
  Near.includes ":" encoded = false ->
  baseDecode encoded = Some bytes ->
  length bytes = 32%nat ->
  (rest = EmptyString \/ exists junk, rest = ":" +:+ junk) ->
  Near.verifyAddress baseDecode ("ed25519:" +:+ encoded +:+ rest)
    = Near.valid ("ed25519:" +:+ encoded +:+ rest) "ENCODED_PUBKEY".
Proof.
  intros Hfree Hdecode Hlen Hrest. set (address := "ed25519:" +:+ encoded +:+ rest).
  assert (Near.includes ":" address = true) as Hcolon by reflexivity.
  assert (Near.wellFormed address = false) as Hwf.
  { destruct (Near.wellFormed address) eqn:E; [|done].
    apply wellFormed_no_colon in E. congruence. }
  assert (Near.test Near.IMPLICIT_ACCOUNT_PATTERN address = false) as Himp.
  { rewrite implicit_pattern_scan.
    destruct (_ && _) eqn:E; [|done]. exfalso.
    apply andb_true_iff in E as [_ Hall].
    assert (Near.wellFormed address = true); [|congruence].
    unfold Near.wellFormed. by apply letters_well_formed. }
  assert (Near.split ":" address
          = "ed25519" :: encoded
              :: match rest with
                 | EmptyString => []
                 | String _ junk => Near.split ":" junk
                 end) as Hsplit.
  { unfold Near.split, address, Near.includes in *.
    rewrite chars_append.
    rewrite (Near_splitOn_first_literal (list_ascii_of_string (encoded +:+ rest))).
    rewrite chars_append.
    destruct Hrest as [->|[junk ->]].
    - rewrite app_nil_r, (splitOn_free _ _ Hfree). simpl.
      by rewrite string_of_list_ascii_of_string.
    - change (list_ascii_of_string (":" +:+ junk))
        with (":"%char :: list_ascii_of_string junk).
      rewrite (splitOn_first _ _ _ Hfree). simpl.
      by rewrite string_of_list_ascii_of_string. }
  unfold Near.verifyAddress. rewrite Himp, register_pattern_scan, Hwf, Hcolon.
  unfold Near.encodedPubkey. rewrite Hsplit. simpl. rewrite Hdecode, Hlen. done.
Qed.

(** X21.  An address with a colon is read as
    [prefix:encoded[:anything]]: when the prefix is [ed25519] and the
    second piece decodes to 32 bytes, the address is valid with the
    encoding ENCODED_PUBKEY and returned whole, whatever follows a second
    colon. *)
Theorem near_verifyAddress_encoded_pubkey
    (baseDecode : string -> option (list Byte.byte))
    (encoded junk : string) (bytes : list Byte.byte) :
  Near.includes ":" encoded = false ->
  baseDecode encoded = Some bytes ->
  length bytes = 32%nat ->
  Near.verifyAddress baseDecode ("ed25519:" +:+ encoded)
    = Near.valid ("ed25519:" +:+ encoded) "ENCODED_PUBKEY" /\
  Near.verifyAddress baseDecode ("ed25519:" +:+ encoded +:+ ":" +:+ junk)
    = Near.valid ("ed25519:" +:+ encoded +:+ ":" +:+ junk) "ENCODED_PUBKEY".
Proof.
  intros Hfree Hdecode Hlen. split.
  - pose proof (verifyAddress_ed25519 baseDecode encoded EmptyString bytes
                  Hfree Hdecode Hlen (or_introl eq_refl)) as H.
    by rewrite Near_append_empty in H.
  - apply (verifyAddress_ed25519 baseDecode encoded (":" +:+ junk) bytes); try done.
    right. by exists junk.
Qed.

Lemma near_verifyAddress_encoded_pubkey_witness :
  let baseDecode := fun s : string =>
    if String.eqb s "4vJ9" then Some (repeat Byte.x2a 32) else None in
  Near.verifyAddress baseDecode ("ed25519:" +:+ "4vJ9")
    = Near.valid ("ed25519:" +:+ "4vJ9") "ENCODED_PUBKEY" /\
  Near.verifyAddress baseDecode ("ed25519:" +:+ "4vJ9" +:+ ":" +:+ "anything")
    = Near.valid ("ed25519:" +:+ "4vJ9" +:+ ":" +:+ "anything") "ENCODED_PUBKEY".
Proof.
  intros baseDecode.
  apply (near_verifyAddress_encoded_pubkey baseDecode "4vJ9" "anything" (repeat Byte.x2a 32)).
  - reflexivity.
  - reflexivity.
  - reflexivity.
Defined.

Lemma string_of_list_length (chars : list ascii) :
  String.length (string_of_list_ascii chars) = length chars.
Proof. induction chars as [|c l IH]; simpl; [done | by rewrite IH]. Qed.

(** X22.  The address derived from a public key of 32 bytes in the
    default (hexadecimal) form is accepted by [verifyAddress] as an
    IMPLICIT_ACCOUNT, unchanged. *)
Theorem near_hex_address_verifies
    (baseEncode : list Byte.byte -> string) (baseDecode : string -> option (list Byte.byte))
    (pubkey : list Byte.byte) :
  length pubkey = 32%nat ->
  Near.pubkeyToAddress baseEncode pubkey None = Near.toHex pubkey /\
  Near.verifyAddress baseDecode (Near.pubkeyToAddress baseEncode pubkey None)
    = Near.valid (Near.toHex pubkey) "IMPLICIT_ACCOUNT".
Proof.
  intros Hlen. split; [done|]. cbn [Near.pubkeyToAddress].
  unfold Near.verifyAddress. rewrite implicit_pattern_scan.
  unfold Near.toHex. rewrite string_of_list_length, list_ascii_of_string_of_list_ascii.
  destruct (toHex_chars pubkey) as [Hl Hall]. rewrite Hl, Hall, Hlen. done.
Qed.

Lemma near_hex_address_verifies_witness :
  Near.pubkeyToAddress (fun _ => "4vJ9") (repeat Byte.x2a 32) None
    = Near.toHex (repeat Byte.x2a 32) /\
  Near.verifyAddress (fun _ => None)
      (Near.pubkeyToAddress (fun _ => "4vJ9") (repeat Byte.x2a 32) None)
    = Near.valid (Near.toHex (repeat Byte.x2a 32)) "IMPLICIT_ACCOUNT".
Proof.
  apply (near_hex_address_verifies (fun _ => "4vJ9") (fun _ => None) (repeat Byte.x2a 32)).
  reflexivity.
Defined.

(** X23.  With a base-58 codec that decodes what it encodes and whose
    alphabet has no colon, the address derived from a public key of 32
    bytes in the ENCODED_PUBKEY form is accepted by [verifyAddress] with
    that encoding, unchanged. *)
Theorem near_encoded_address_verifies
    (baseEncode : list Byte.byte -> string) (baseDecode : string -> option (list Byte.byte))
    (pubkey : list Byte.byte) :
  length pubkey = 32%nat ->
  baseDecode (baseEncode pubkey) = Some pubkey ->
  Near.includes ":" (baseEncode pubkey) = false ->
  Near.verifyAddress baseDecode
      (Near.pubkeyToAddress baseEncode pubkey (Some "ENCODED_PUBKEY"))
    = Near.valid ("ed25519:" +:+ baseEncode pubkey) "ENCODED_PUBKEY".
Proof.
  intros Hlen Hcodec Hfree.
  change (Near.pubkeyToAddress baseEncode pubkey (Some "ENCODED_PUBKEY"))
    with ("ed25519:" +:+ baseEncode pubkey).
  pose proof (verifyAddress_ed25519 baseDecode (baseEncode pubkey) EmptyString pubkey
                Hfree Hcodec Hlen (or_introl eq_refl)) as H.
  by rewrite Near_append_empty in H.
Qed.

Lemma near_encoded_address_verifies_witness :
  let baseEncode := fun _ : list Byte.byte => "4vJ9" in
  let baseDecode := fun s : string =>
    if String.eqb s "4vJ9" then Some (repeat Byte.x2a 32) else None in
  Near.verifyAddress baseDecode
      (Near.pubkeyToAddress baseEncode (repeat Byte.x2a 32) (Some "ENCODED_PUBKEY"))
    = Near.valid ("ed25519:" +:+ baseEncode (repeat Byte.x2a 32)) "ENCODED_PUBKEY".
Proof.
  intros baseEncode baseDecode.
  apply (near_encoded_address_verifies baseEncode baseDecode (repeat Byte.x2a 32)).
  - reflexivity.
  - reflexivity.
  - reflexivity.
Defined.

(** ** The JSON-RPC engine: transport *)

(** X24.  A reply whose status is not 2xx rejects [call] and [batchCall]
    alike with "Wrong response<STATUS>", at the instant of the reply and
    whatever its body holds: the body is not parsed. *)
Theorem transport_failure_rejects
    (fetch : HttpRequest -> Promise HttpResponse) (self : JsonRPCRequest)
    (perCall : gmap string string) (t : N) (response : HttpResponse) :
  isOk response = false ->
  (forall method params,
     fetch (request self (callPayload method params) perCall)
       = Settles t (Fulfilled response) ->
     call fetch self method params perCall
       = Settles t (Rejected (ResponseError
           ("Wrong response<" +:+ showNat (status response) +:+ ">")))) /\
  (forall calls,
     fetch (request self (batchPayload calls) perCall)
       = Settles t (Fulfilled response) ->
     batchCall fetch self calls perCall
       = Settles t (Rejected (ResponseError
           ("Wrong response<" +:+ showNat (status response) +:+ ">")))).
Proof.
  intros Hbad. split.
  - intros method params Hfetch. unfold call, post. rewrite Hfetch, andThen_fulfilled.
    unfold classify. rewrite Hbad, later_reject. reflexivity.
  - intros calls Hfetch. unfold batchCall, post. rewrite Hfetch, andThen_fulfilled.
    unfold classify. rewrite Hbad, later_reject. reflexivity.
Qed.

Lemma transport_failure_rejects_witness :
  let response := mkResponse 404 (JObject [("jsonrpc", JString "2.0"); ("result", JNull)]) in
  let fetch := fun _ : HttpRequest => Settles 15 (Fulfilled response) in
  (forall method params,
     fetch (request Fixtures.rpc (callPayload method params) ∅)
       = Settles 15 (Fulfilled response) ->
     call fetch Fixtures.rpc method params ∅
       = Settles 15 (Rejected (ResponseError
           ("Wrong response<" +:+ showNat (status response) +:+ ">")))) /\
  (forall calls,
     fetch (request Fixtures.rpc (batchPayload calls) ∅)
       = Settles 15 (Fulfilled response) ->
     batchCall fetch Fixtures.rpc calls ∅
       = Settles 15 (Rejected (ResponseError
           ("Wrong response<" +:+ showNat (status response) +:+ ">")))).
Proof.
  intros response fetch.
  apply (transport_failure_rejects fetch Fixtures.rpc ∅ 15 response).
  reflexivity.
Defined.

(** ** The fan-out adapter: throwing handlers and the console *)

Section AdapterThrows.
Context {T R : Type}.
Implicit Types (inputs : list T) (handler : T -> Outcome (Promise (option R)))
               (h : T -> Promise (option R)).

(** With a handler that cannot throw the adapter never rejects, and it
    stays pending exactly when one of the calls never settles. *)
Lemma batchCall2SingleCall_pending_iff inputs h :
  Abc.batchCall2SingleCall inputs h = Never <-> exists x, x ∈ inputs /\ h x = Never.
Proof.
  rewrite batchCall2SingleCall_unfold. split.
  - destruct (settleAll (map h inputs)) as [[t os]|] eqn:E; [done|].
    intros _. apply settleAll_unsettled, list_elem_of_fmap in E as (x & Hx & Hin).
    by exists x.
  - intros (x & Hin & Hx).
    destruct (settleAll (map h inputs)) as [[t os]|] eqn:E; [|done].
    apply list_elem_of_lookup in Hin as [i Hi].
    destruct (settleAll_lookup (map h inputs) t os i (h x) E) as (ti & o & Hp & _).
    { by rewrite list_lookup_fmap, Hi. }
    congruence.
Qed.

Lemma batchCall2SingleCall_not_rejected inputs h t e :
  Abc.batchCall2SingleCall inputs h <> Settles t (Rejected e).
Proof.
  rewrite batchCall2SingleCall_unfold.
  by destruct (settleAll (map h inputs)) as [[t' os]|].
Qed.

(** The loop of [inputs.map(handler)] ends with the first throw. *)
Lemma mapThrowing_first_throw handler inputs e :
  Stc.mapThrowing handler inputs = Rejected e <->
  exists index x,
    inputs !! index = Some x /\ handler x = Rejected e /\
    forall before y, (before < index)%nat -> inputs !! before = Some y ->
                     exists p, handler y = Fulfilled p.
Proof.
  induction inputs as [|a l IH]; cbn [Stc.mapThrowing].
  - split; [done|]. by intros (index & x & Hx & _).
  - destruct (handler a) as [p|e'] eqn:Ha.
    + assert ((exists index x,
                 (a :: l) !! index = Some x /\ handler x = Rejected e /\
                 forall before y, (before < index)%nat -> (a :: l) !! before = Some y ->
                                  exists q, handler y = Fulfilled q)
              <-> Stc.mapThrowing handler l = Rejected e) as ->.
      { rewrite IH. split.
        - intros (index & x & Hx & Hthrow & Hbefore).
          destruct index as [|index]; [cbn in Hx; congruence|].
          exists index, x. split; [done|]. split; [done|].
          intros before y Hlt Hy. apply (Hbefore (S before) y); [lia | done].
        - intros (index & x & Hx & Hthrow & Hbefore).
          exists (S index), x. split; [done|]. split; [done|].
          intros [|before] y Hlt Hy.
          + cbn in Hy. inversion Hy; subst. by exists p.
          + apply (Hbefore before y); [lia | done]. }
      destruct (Stc.mapThrowing handler l) as [ps|e'']; [done|].
      split; intros Heq; by inversion Heq.
    + split.
      * intros Heq. inversion Heq; subst. exists 0%nat, a. split; [done|]. split; [done|].
        intros before y Hlt. lia.
      * intros (index & x & Hx & Hthrow & Hbefore).
        destruct index as [|index].
        -- cbn in Hx. inversion Hx; subst. congruence.
        -- destruct (Hbefore 0%nat a) as [p Hp]; [lia | done | congruence].
Qed.

(** A handler whose calls all return a promise is a handler of
    [Abc.batchCall2SingleCall]. *)
Lemma mapThrowing_returns handler inputs h :
  (forall x, x ∈ inputs -> handler x = Fulfilled (h x)) ->
  Stc.mapThrowing handler inputs = Fulfilled (map h inputs).
Proof.
  induction inputs as [|a l IH]; intros Hall; cbn [Stc.mapThrowing map]; [done|].
  rewrite (Hall a) by by left.
  rewrite IH; [done|]. intros x Hx. apply Hall. by right.
Qed.

Lemma batchCall2SingleCall_returns inputs handler h :
  (forall x, x ∈ inputs -> handler x = Fulfilled (h x)) ->
  Throwing.batchCall2SingleCall inputs handler = Abc.batchCall2SingleCall inputs h.
Proof.
  intros Hall. unfold Throwing.batchCall2SingleCall.
  by rewrite (mapThrowing_returns handler inputs h Hall).
Qed.

End AdapterThrows.

(** X9.  The fan-out adapter rejects only when a call of the handler
    throws before it has returned a promise: the adapter then rejects at
    once with what the first such call threw.  When every call returns a
    promise the adapter is the one of C3: it never rejects, and it stays
    pending exactly when one of the promises never settles. *)
Theorem batchCall2SingleCall_rejects_only_on_throw
    {T R : Type} (inputs : list T) (handler : T -> Outcome (Promise.Promise (option R))) :
  (forall t e,
     Throwing.batchCall2SingleCall inputs handler = Settles t (Rejected e) <->
     t = 0%N /\
     exists index x,
       inputs !! index = Some x /\ handler x = Rejected e /\
       forall before y, (before < index)%nat -> inputs !! before = Some y ->
                        exists p, handler y = Fulfilled p) /\
  (Throwing.batchCall2SingleCall inputs handler = Never <->
     (forall x, x ∈ inputs -> exists p, handler x = Fulfilled p) /\
     exists x, x ∈ inputs /\ handler x = Fulfilled Never) /\
  (forall h : T -> Promise.Promise (option R),
     (forall x, x ∈ inputs -> handler x = Fulfilled (h x)) ->
     Throwing.batchCall2SingleCall inputs handler = Abc.batchCall2SingleCall inputs h).
Proof.
  set (h := fun x => match handler x with
                     | Fulfilled p => p
                     | Rejected _ => Never
                     end).
  assert (forall promises,
            Stc.mapThrowing handler inputs = Fulfilled promises ->
            forall x, x ∈ inputs -> handler x = Fulfilled (h x)) as Hreturns.
  { intros promises Hmap x Hx. apply mapThrowing_fulfilled in Hmap.
    apply list_elem_of_lookup in Hx as [i Hi].
    destruct (Forall2_lookup_l _ _ _ _ _ Hmap Hi) as (p & _ & Hp).
    subst h. cbn. by rewrite Hp. }
  split; [|split].
  - intros t e. rewrite <- mapThrowing_first_throw. split.
    + intros Hrej. destruct (Stc.mapThrowing handler inputs) as [promises|e'] eqn:Hmap.
      * rewrite (batchCall2SingleCall_returns inputs handler h (Hreturns _ eq_refl)) in Hrej.
        by apply batchCall2SingleCall_not_rejected in Hrej.
      * unfold Throwing.batchCall2SingleCall in Hrej. rewrite Hmap in Hrej.
        by inversion Hrej.
    + intros [-> Hmap]. unfold Throwing.batchCall2SingleCall. by rewrite Hmap.
  - split.
    + intros Hnever. destruct (Stc.mapThrowing handler inputs) as [promises|e'] eqn:Hmap.
      * pose proof (Hreturns _ eq_refl) as Hall.
        rewrite (batchCall2SingleCall_returns inputs handler h Hall) in Hnever.
        apply batchCall2SingleCall_pending_iff in Hnever as (x & Hx & Hn).
        split; [intros y Hy; by eexists; apply Hall|].
        exists x. split; [done|]. by rewrite (Hall x Hx), Hn.
      * unfold Throwing.batchCall2SingleCall in Hnever. by rewrite Hmap in Hnever.
    + intros [Hall (x & Hx & Hn)].
      assert (forall y, y ∈ inputs -> handler y = Fulfilled (h y)) as Hall'.
      { intros y Hy. destruct (Hall y Hy) as [p Hp]. subst h. cbn. by rewrite Hp. }
      rewrite (batchCall2SingleCall_returns inputs handler h Hall').
      apply batchCall2SingleCall_pending_iff. exists x. split; [done|].
      subst h. cbn. by rewrite Hn.
  - intros h'. apply batchCall2SingleCall_returns.
Qed.

(** A handler that throws for its second input, as [inputs.map] meets
    it: the adapter rejects at once, although the first call is still
    pending. *)
Example batchCall2SingleCall_sync_throw :
  Throwing.batchCall2SingleCall ["0xa"; "0xb"; "0xc"]
    (fun address : string =>
       if String.eqb address "0xb" then Rejected (PlainError "bad address")
       else Fulfilled (Settles 30 (Fulfilled (Some 7%nat))))
    = reject (PlainError "bad address").
Proof. reflexivity. Qed.

Lemma andThen_resolve {A B} (v : A) (k : A -> Promise.Promise B) : resolve v ≫= k = k v.
Proof. unfold resolve. rewrite andThen_fulfilled. apply later_0. Qed.

Section AdapterConsole.
Context {T R : Type}.
Implicit Types (inputs : list T) (handler : T -> Promise (option R)).

(** The lines of a run, read off the calls themselves. *)
Lemma debugLines_settleAll (handlerName : string) handler :
  forall inputs pre t outputs,
    settleAll (map handler inputs) = Some (t, outputs) ->
    omap id (imap (fun index result =>
                     match result with
                     | Fulfilled _ => None
                     | Rejected why =>
                         Some (debugLine handlerName
                                 ((pre ++ inputs)%list !! (length pre + index)%nat) why)
                     end) outputs)
    = omap (fun x => match handler x with
                     | Settles _ (Rejected why) => Some (debugLine handlerName (Some x) why)
                     | _ => None
                     end) inputs.
Proof.
  induction inputs as [|x inputs IH]; intros pre t outputs Hall.
  - cbn in Hall. by inversion Hall.
  - cbn [map settleAll] in Hall.
    destruct (handler x) as [tx o|] eqn:Hx; [|done].
    destruct (settleAll (map handler inputs)) as [[t' outputs']|] eqn:Hrest; [|done].
    inversion Hall; subst. rewrite imap_cons, !omap_cons, Hx. cbn [id].
    assert (omap id (imap ((fun index result =>
                              match result with
                              | Fulfilled _ => None
                              | Rejected why =>
                                  Some (debugLine handlerName
                                          ((pre ++ x :: inputs)%list
                                             !! (length pre + index)%nat) why)
                              end) ∘ S) outputs')
            = omap (fun x => match handler x with
                             | Settles _ (Rejected why) =>
                                 Some (debugLine handlerName (Some x) why)
                             | _ => None
                             end) inputs) as ->.
    { rewrite <- (IH (pre ++ [x])%list t' outputs' eq_refl). f_equal.
      apply imap_ext. intros i r _. cbn. destruct r; [done|].
      do 2 f_equal. rewrite <- (assoc_L (++)). cbn [app].
      rewrite length_app. cbn [length]. f_equal. lia. }
    destruct o as [v|why]; [done|].
    by rewrite Nat.add_0_r, list_lookup_middle.
Qed.

(** The run with its console answers what the plain run answers. *)
Lemma batchCall2SingleCallLogged_fst (handlerName : string) inputs handler :
  fst <$> batchCall2SingleCallLogged handlerName inputs handler
  = batchCall2SingleCall inputs handler.
Proof.
  unfold batchCall2SingleCallLogged, batchCall2SingleCall, allSettled.
  destruct (settleAll (map handler inputs)) as [[t outputs]|] eqn:E; [|done].
  rewrite !andThen_fulfilled, assemble_same_length.
  - by rewrite andThen_resolve, !later_resolve, fmap_fulfilled.
  - apply settleAll_length in E. by rewrite E, length_map.
Qed.

End AdapterConsole.

(** X10.  A run of [batchCall2SingleCall] whose calls all settle has
    written, by the time it fulfils, exactly one [console.debug] line
    per input whose call was rejected, in the order of the inputs; a
    line carries the name of the handler, that input and the reason of
    the rejection, and a fulfilled call leaves no line. *)
Theorem batchCall2SingleCallLogged_failed_items
    {T R : Type} (handlerName : string) (inputs : list T)
    (handler : T -> Promise.Promise (option R)) :
  Forall (fun x => settled (handler x) = true) inputs ->
  exists t,
    batchCall2SingleCall inputs handler
      = Settles t (Fulfilled (map (fun x => slot (handler x)) inputs)) /\
    batchCall2SingleCallLogged handlerName inputs handler
      = Settles t (Fulfilled
          (map (fun x => slot (handler x)) inputs,
           omap (fun x => match handler x with
                          | Settles _ (Rejected why) =>
                              Some (mkDebug ("Error in Calling " +:+ handlerName +:+ ". ")
                                            " input: " (Some x) ", reason" why)
                          | _ => None
                          end) inputs)).
Proof.
  intros Hall.
  destruct (settleAll_settled (map handler inputs)) as (t & outputs & E).
  { by apply Forall_map. }
  exists t. split.
  - rewrite batchCall2SingleCall_unfold. by rewrite E.
  - unfold batchCall2SingleCallLogged, allSettled. rewrite E.
    rewrite andThen_fulfilled, assemble_same_length.
    + rewrite andThen_resolve, later_resolve. do 2 f_equal. f_equal.
      * by rewrite (settleAll_slots _ _ _ E), map_map.
      * exact (debugLines_settleAll handlerName handler inputs [] t outputs E).
    + apply settleAll_length in E. by rewrite E, length_map.
Qed.

Lemma batchCall2SingleCallLogged_failed_items_witness :
  let handler := fun address : string =>
    if String.eqb address "0xa" then Settles 30 (Fulfilled (Some 7%nat))
    else if String.eqb address "0xb" then Settles 10 (Rejected NotImplementedError)
    else Settles 20 (Rejected (ResponseError "Wrong response<502>")) in
  exists t,
    batchCall2SingleCall ["0xa"; "0xb"; "0xc"] handler
      = Settles t (Fulfilled (map (fun x => slot (handler x)) ["0xa"; "0xb"; "0xc"])) /\
    batchCall2SingleCallLogged "getAddress" ["0xa"; "0xb"; "0xc"] handler
      = Settles t (Fulfilled
          (map (fun x => slot (handler x)) ["0xa"; "0xb"; "0xc"],
           omap (fun x => match handler x with
                          | Settles _ (Rejected why) =>
                              Some (mkDebug ("Error in Calling " +:+ "getAddress" +:+ ". ")
                                            " input: " (Some x) ", reason" why)
                          | _ => None
                          end) ["0xa"; "0xb"; "0xc"])).
Proof.
  intros handler.
  apply (batchCall2SingleCallLogged_failed_items "getAddress" ["0xa"; "0xb"; "0xc"] handler).
  repeat constructor.
Defined.
